(** * grob: routing files to tags and joining them into groups

    A shallow embedding of [grob/core/files.py] (the [FileCollection]
    class, [find_by_tag], [group_by_key] and [_sort_collections_by_type])
    and of [grob/core/output_formatters.py] ([prepare_groups],
    [format_groups] and the formatters), together with a model of the
    path-pattern compiler the tags rely on.

    Python dictionaries keep their insertion order and the code iterates
    over them, so they are embedded as association lists whose operations
    keep the first binding of a key in place.  Exceptions are embedded as an
    error monad. *)

From stdpp Require Import gmap strings list sorting.
From Stdlib Require Import Ascii.

Open Scope string_scope.
Open Scope list_scope.
Open Scope nat_scope.

(** ** Insertion-ordered dictionaries *)

Module Dict.
Section dict.
Context {K V : Type} `{EqDecision K}.

Definition dict := list (K * V).

(** [d.get(k)] *)
Fixpoint get (k : K) (d : dict) : option V :=
  match d with
  | [] => None
  | (k', v) :: d' => if decide (k = k') then Some v else get k d'
  end.

(** [d[k] = v]: an existing key keeps its position, a new key goes last. *)
Fixpoint set (k : K) (v : V) (d : dict) : dict :=
  match d with
  | [] => [(k, v)]
  | (k', v') :: d' =>
      if decide (k = k') then (k', v) :: d' else (k', v') :: set k v d'
  end.

Definition keys (d : dict) : list K := d.*1.

(** The representation invariant of a Python dictionary. *)
Definition wf (d : dict) : Prop := NoDup (keys d).
End dict.
Global Arguments dict : clear implicits.
End Dict.

Abbreviation dict := Dict.dict.
(** ** Exceptions *)

Definition Path := string.
Definition GroupKey := string.
Definition TagName := string.

(** The two exceptions the code can raise: the [ValueError(file)] of
    [add_if_matches], and the [AttributeError] Python raises when a method is
    looked up on a value that has none ([append] on a path, [keys] on a
    string). *)
Inductive exn :=
| ValueError (file : Path)
| AttributeError.

Inductive result (A : Type) :=
| Ok (a : A)
| Raise (e : exn).
Global Arguments Ok {A} a.
Global Arguments Raise {A} e.

Global Instance result_ret : MRet result := λ A a, Ok a.
Global Instance result_bind : MBind result := λ A B f m,
  match m with
  | Ok a => f a
  | Raise e => Raise e
  end.

(** A [for] loop that threads a state and stops at the first exception. *)
Fixpoint foldM {A B : Type} (f : A → B → result A) (a : A) (l : list B)
  : result A :=
  match l with
  | [] => Ok a
  | x :: l' => a' ← f a x; foldM f a' l'
  end.

(** A [for] loop over the items of a dictionary that rebuilds each item. *)
Fixpoint forM {A B : Type} (f : A → result B) (l : list A) : result (list B) :=
  match l with
  | [] => Ok []
  | x :: l' => y ← f x; l'' ← forM f l'; Ok (y :: l'')
  end.

(** [sorted(l, key=key)]: Python's sort is stable, and a stable sort has one
    result only; insertion from the right computes it. *)
Fixpoint insert_by {A : Type} (key : A → nat) (x : A) (l : list A) : list A :=
  match l with
  | [] => [x]
  | y :: l' => if decide (key x ≤ key y) then x :: l else y :: insert_by key x l'
  end.

Definition sorted {A : Type} (key : A → nat) (l : list A) : list A :=
  foldr (insert_by key) [] l.

(** The order [sorted] puts a list in. *)
Definition by_key {A : Type} (key : A → nat) (x y : A) : Prop := key x ≤ key y.

(** ** [grob/core/files.py] *)

Module Files.

Abbreviation MultiPartKey := (gmap string string).

(** [Union[GroupKey, MultiPartKey]], the keys of [FileCollection.files]. *)
Inductive Key :=
| MultiPart (parts : MultiPartKey)
| Formatted (g : GroupKey).

Global Instance Key_eq_dec : EqDecision Key.
Proof. solve_decision. Defined.

(** [Union[Path, List[Path]]], the values of [FileCollection.files]. *)
Inductive Paths :=
| One (p : Path)
| Many (ps : list Path).

Global Instance Paths_eq_dec : EqDecision Paths.
Proof. solve_decision. Defined.

(** Modelled from the spec: the parser object of a tag ([grob/core/parsers.py]
    is not part of the sources).  It is called on a path and answers a key or
    [None], and it exposes the ordered list of its key parts. *)
Record Parser := {
  call : Path → option Key;
  key_parts : list string
}.

(** Modelled from the spec: the tag classes of [grob/core/tags.py], which is
    not part of the sources.  [files.py] tells them apart with [isinstance]:
    a [DistributableTag], else a [MultiPartTag], else a plain single-part
    tag; only the first carries [distribute_over]. *)
Inductive TagKind :=
| MultiPartTag
| DistributableTag (over : list string)
| SinglePartTag.

Record Tag := {
  name : TagName;
  parser : Parser;
  allow_multiple : bool;
  kind : TagKind
}.

Definition distribute_over (t : Tag) : list string :=
  match kind t with
  | DistributableTag over => over
  | _ => []
  end.

(** [Group]: tag name to path or list of paths. *)
Abbreviation Group := (dict TagName Paths).

Record FileCollection := {
  tag : Tag;
  files : dict Key Paths
}.

(** [FileCollection(tag=tag)]: the default factory gives an empty dict. *)
Definition new_collection (t : Tag) : FileCollection :=
  {| tag := t; files := [] |}.

Definition with_files (c : FileCollection) (d : dict Key Paths)
  : FileCollection :=
  {| tag := tag c; files := d |}.

(** [FileCollection.add_if_matches]: the returned boolean and the collection
    after the call. *)
Definition add_if_matches (c : FileCollection) (file : Path)
  : result (bool * FileCollection) :=
  match call (parser (tag c)) file with
  | None => Ok (false, c)
  | Some key =>
      if allow_multiple (tag c) then
        (* self.files.setdefault(key, []).append(file) *)
        match Dict.get key (files c) with
        | None => Ok (true, with_files c (Dict.set key (Many [file]) (files c)))
        | Some (Many ps) =>
            Ok (true, with_files c (Dict.set key (Many (ps ++ [file])) (files c)))
        | Some (One _) => Raise AttributeError
        end
      else
        match Dict.get key (files c) with
        | None => Ok (true, with_files c (Dict.set key (One file) (files c)))
        | Some _ => Raise (ValueError file)
        end
  end.

(** The inner loop of [find_by_tag]: offer [file] to the collections in
    order and stop at the first one that takes it. *)
Fixpoint route (file : Path) (cs : list FileCollection)
  : result (list FileCollection) :=
  match cs with
  | [] => Ok []
  | c :: rest =>
      '(added, c') ← add_if_matches c file;
      if added : bool then Ok (c' :: rest)
      else rest' ← route file rest; Ok (c' :: rest')
  end.

Definition find_by_tag (fs : list Path) (tags : list Tag)
  : result (list FileCollection) :=
  foldM (λ cs file, route file cs) (new_collection <$> tags) fs.

(** [_sort_collections_by_type] *)
Fixpoint split_by_type (cs : list FileCollection)
  : list FileCollection * list FileCollection * list FileCollection :=
  match cs with
  | [] => ([], [], [])
  | c :: rest =>
      let '(multi, distributable, single) := split_by_type rest in
      match kind (tag c) with
      | DistributableTag _ => (multi, c :: distributable, single)
      | MultiPartTag => (c :: multi, distributable, single)
      | SinglePartTag => (multi, distributable, c :: single)
      end
  end.

Definition nb_key_parts (c : FileCollection) : nat :=
  length (key_parts (parser (tag c))).

Definition _sort_collections_by_type (cs : list FileCollection)
  : list FileCollection * list FileCollection * list FileCollection :=
  let '(multi, distributable, single) := split_by_type cs in
  (multi, sorted nb_key_parts distributable, single).

(** [groups.setdefault(key, {})[tag_name] = path] *)
Definition attach (tag_name : TagName) (groups : dict Key Group)
    (item : Key * Paths) : dict Key Group :=
  Dict.set item.1
    (Dict.set tag_name item.2 (default [] (Dict.get item.1 groups))) groups.

(** One collection poured into the groups (lines 70-71 and 80-81). *)
Definition collect (groups : dict Key Group) (c : FileCollection)
  : dict Key Group :=
  foldl (attach (name (tag c))) groups (files c).

(** [frozendict({part: key[part] for part in key.keys() - set(over)})];
    a formatted key is a string and has no [keys]. *)
Definition join_key (over : list string) (key : Key) : result Key :=
  match key with
  | MultiPart parts => Ok (MultiPart (filter (λ kv, kv.1 ∉ over) parts))
  | Formatted _ => Raise AttributeError
  end.

(** The body of the loop of lines 73-77 for one group. *)
Definition distribute_to (c : FileCollection) (item : Key * Group)
  : result (Key * Group) :=
  jk ← join_key (distribute_over (tag c)) item.1;
  match Dict.get jk (files c) with
  | Some path => Ok (item.1, Dict.set (name (tag c)) path item.2)
  | None => Ok item
  end.

(** One distributable collection joined into every group (lines 73-77). *)
Definition distribute (groups : dict Key Group) (c : FileCollection)
  : result (dict Key Group) :=
  forM (distribute_to c) groups.

(** [{key_formatter(key_parts): group for key_parts, group in groups.items()}];
    the formatter is called on whatever key a group has. *)
Definition format_groups (key_formatter : Key → GroupKey)
    (groups : dict Key Group) : dict Key Group :=
  foldl (λ acc item, Dict.set (Formatted (key_formatter item.1)) item.2 acc)
        [] groups.

Definition group_by_key (file_collections : list FileCollection)
    (key_formatter : Key → GroupKey) : result (dict Key Group) :=
  let '(multi_part_collections, distributable_collections,
        single_part_collections) :=
    _sort_collections_by_type file_collections in
  let groups := foldl collect [] multi_part_collections in
  groups ← foldM distribute groups distributable_collections;
  let formatted_groups := format_groups key_formatter groups in
  Ok (foldl collect formatted_groups single_part_collections).

End Files.

(** ** The path-pattern compiler and matcher

    [grob/core/path_parser.py] is not part of the sources: only its tests
    ([tests/core/test_path_parser.py]) are.  The module below is written from
    section 4.1 of the specification and agrees with every case of those
    tests (see the examples further down). *)

Module PathParser.

(** *** Characters *)

Definition code (c : ascii) : nat := nat_of_ascii c.

Definition between (lo hi : nat) (c : ascii) : bool :=
  (lo <=? code c) && (code c <=? hi).

Definition is_digit (c : ascii) : bool := between 48 57 c.
Definition is_letter (c : ascii) : bool := between 65 90 c || between 97 122 c.

(** Modelled from the spec: a key-part name is "an identifier"; the characters
    of an identifier are letters, digits and the underscore. *)
Definition is_word (c : ascii) : bool :=
  is_digit c || is_letter c || Ascii.eqb c "_".

Definition is_space (c : ascii) : bool := between 9 13 c || Ascii.eqb c " ".

(** Modelled from the spec: "the path separator". *)
Definition is_sep (c : ascii) : bool := Ascii.eqb c "/".

Definition is_brace (c : ascii) : bool := Ascii.eqb c "{" || Ascii.eqb c "}".

(** *** Tokens of a pattern *)

(** Modelled from the spec: the four token rules of the compiler, "applied
    left to right over the raw pattern text": an escaped brace, a placeholder
    with or without the [!g] modifier, a [*] that stands as its own path
    segment, and every other character, which is passed through. *)
Inductive token :=
| TBrace (c : ascii)
| TPlaceholder (name : string) (greedy : bool)
| TSegment
| TRaw (c : ascii).

(** The two states of the scan: in ordinary text, or inside the braces of a
    placeholder. *)
Inductive mode :=
| Text (at_sep : bool)
| Name (acc : list ascii).

(** Modelled from the spec: a standalone [*] is bounded on its right "by a
    path separator or by the end of the pattern". *)
Definition segment_end (rest : list ascii) : bool :=
  match rest with
  | [] => true
  | c :: _ => is_sep c
  end.

(** Modelled from the spec: the left-to-right scan of the pattern text.
    [Text at_sep] reads ordinary text, [at_sep] telling whether the scan is at
    the start of the pattern or just after a separator; [Name acc] reads the
    name of a placeholder after its opening brace.  [None] is the
    PatternCompileError of section 7: a malformed placeholder or an unbalanced
    brace. *)
Fixpoint lex (m : mode) (s : list ascii) : option (list token) :=
  match m, s with
  | Text _, [] => Some []
  | Text at_sep, c :: rest =>
      if Ascii.eqb c "\" then
        match rest with
        | b :: rest' =>
            if is_brace b then cons (TBrace b) <$> lex (Text false) rest'
            else cons (TRaw c) <$> lex (Text false) rest
        | [] => Some [TRaw c]
        end
      else if Ascii.eqb c "{" then lex (Name []) rest
      else if Ascii.eqb c "}" then None
      else if Ascii.eqb c "*" && at_sep && segment_end rest then
        cons TSegment <$> lex (Text false) rest
      else cons (TRaw c) <$> lex (Text (is_sep c)) rest
  | Name _, [] => None
  | Name acc, c :: rest =>
      if is_word c then lex (Name (acc ++ [c])) rest
      else
        match acc with
        | [] => None
        | _ :: _ =>
            if Ascii.eqb c "}" then
              cons (TPlaceholder (String.string_of_list_ascii acc) false)
                <$> lex (Text false) rest
            else if Ascii.eqb c "!" then
              match rest with
              | g :: b :: rest' =>
                  if Ascii.eqb g "g" && Ascii.eqb b "}" then
                    cons (TPlaceholder (String.string_of_list_ascii acc) true)
                      <$> lex (Text false) rest'
                  else None
              | _ => None
              end
            else None
        end
  end.

(** Modelled from the spec: the tokens of a pattern, scanned from its
    start. *)
Definition tokens (pattern : string) : option (list token) :=
  lex (Text true) (String.list_ascii_of_string pattern).

(** The names of the placeholders among the tokens, in order. *)
Definition names (ts : list token) : list string :=
  omap (λ t, match t with TPlaceholder n _ => Some n | _ => None end) ts.

(** Modelled from the spec: [key_parts], "the ordered list of part names
    discovered at compile time"; the name of each placeholder is "appended,
    in order, to the key-part list". *)
Definition key_parts (pattern : string) : option (list string) :=
  names <$> tokens pattern.

(** *** The matching expression *)

(** Modelled from the spec: the characters one position of the expression
    accepts: any character (a placeholder "may match across path-separator
    characters"), a given character, or one of the classes of the
    regular-expression syntax. *)
Inductive cset :=
| Any
| Only (c : ascii)
| Digit
| Word
| Space
| Sep
| Not (cs : cset).

Fixpoint mem (cs : cset) (c : ascii) : bool :=
  match cs with
  | Any => true
  | Only c' => Ascii.eqb c c'
  | Digit => is_digit c
  | Word => is_word c
  | Space => is_space c
  | Sep => is_sep c
  | Not cs' => negb (mem cs' c)
  end.

(** The quantifiers [*], [+] and [?]. *)
Inductive quant := ZeroOrMore | OneOrMore | ZeroOrOne.

(** Modelled from the spec: the "single matching expression over whole
    strings" a pattern compiles to.  [Capture] is the named capture of a
    placeholder, [Segment] the standalone wildcard; the other constructors
    are the part of the native regular-expression syntax this model covers:
    one character ([Chr]), a quantified character ([Rep]), sequences,
    alternation and parenthesised groups. *)
Inductive re :=
| Eps
| Chr (cs : cset)
| Rep (cs : cset) (q : quant) (greedy : bool)
| Segment
| Seq (r1 r2 : re)
| Alt (r1 r2 : re)
| Group (r : re)
| Capture (name : string) (r : re).

(** A parenthesis level being read: the alternatives already closed by a
    [|] and the items of the current one, most recent first. *)
Record frame := { alts : list re; items : list re }.

(** The reader of the token list: the top level, the groups opened and not
    yet closed (innermost first), and whether a backslash was just read. *)
Record pstate := { bottom : frame; inner : list frame; escaped : bool }.

Definition empty_frame : frame := {| alts := []; items := [] |}.

Definition initial : pstate :=
  {| bottom := empty_frame; inner := []; escaped := false |}.

Definition seq_of (l : list re) : re := foldr Seq Eps l.

Definition close_frame (f : frame) : re :=
  foldl (λ acc a, Alt a acc) (seq_of (rev (items f))) (alts f).

Definition current (st : pstate) : frame :=
  match inner st with
  | f :: _ => f
  | [] => bottom st
  end.

Definition set_current (f : frame) (st : pstate) : pstate :=
  match inner st with
  | _ :: fs => {| bottom := bottom st; inner := f :: fs; escaped := false |}
  | [] => {| bottom := f; inner := []; escaped := false |}
  end.

Definition push (r : re) (st : pstate) : pstate :=
  set_current {| alts := alts (current st); items := r :: items (current st) |} st.

(** A quantifier applies to the single character before it; a [?] after a
    quantifier makes it lazy. *)
Definition requantify (c : ascii) (r : re) : option re :=
  match r with
  | Chr cs =>
      if Ascii.eqb c "*" then Some (Rep cs ZeroOrMore true)
      else if Ascii.eqb c "+" then Some (Rep cs OneOrMore true)
      else Some (Rep cs ZeroOrOne true)
  | Rep cs q true => if Ascii.eqb c "?" then Some (Rep cs q false) else None
  | _ => None
  end.

(** The character after a backslash: a class, or a punctuation character
    taken literally. *)
Definition escape (c : ascii) : option cset :=
  if Ascii.eqb c "d" then Some Digit
  else if Ascii.eqb c "D" then Some (Not Digit)
  else if Ascii.eqb c "w" then Some Word
  else if Ascii.eqb c "W" then Some (Not Word)
  else if Ascii.eqb c "s" then Some Space
  else if Ascii.eqb c "S" then Some (Not Space)
  else if is_digit c || is_letter c then None
  else Some (Only c).

Definition is_quantifier (c : ascii) : bool :=
  Ascii.eqb c "*" || Ascii.eqb c "+" || Ascii.eqb c "?".

Definition unsupported (c : ascii) : bool :=
  Ascii.eqb c "[" || Ascii.eqb c "]" || Ascii.eqb c "^" || Ascii.eqb c "$"
  || Ascii.eqb c "{" || Ascii.eqb c "}".

(** Modelled from the spec: how one token extends the expression.  A
    placeholder becomes a named capture of one or more characters, lazy
    unless marked [!g] (rule 2); a standalone [*] becomes [Segment] (rule 3);
    an escaped brace becomes that literal character (rule 1); a passed-through
    character is read as regular-expression syntax (rule 4).  [None] stands
    for an expression the engine rejects or this model does not cover
    (character classes in brackets, anchors, a quantifier on a group, [(?...)]
    extensions). *)
Definition pstep (st : pstate) (t : token) : option pstate :=
  if escaped st then
    match t with
    | TRaw c => cs ← escape c; Some (push (Chr cs) st)
    | _ => None
    end
  else
    match t with
    | TBrace c => Some (push (Chr (Only c)) st)
    | TPlaceholder n g => Some (push (Capture n (Rep Any OneOrMore g)) st)
    | TSegment => Some (push Segment st)
    | TRaw c =>
        if Ascii.eqb c "\" then
          Some {| bottom := bottom st; inner := inner st; escaped := true |}
        else if Ascii.eqb c "(" then
          Some {| bottom := bottom st; inner := empty_frame :: inner st;
                  escaped := false |}
        else if Ascii.eqb c ")" then
          match inner st with
          | f :: fs =>
              Some (push (Group (close_frame f))
                      {| bottom := bottom st; inner := fs; escaped := false |})
          | [] => None
          end
        else if Ascii.eqb c "|" then
          Some (set_current
                  {| alts := seq_of (rev (items (current st))) :: alts (current st);
                     items := [] |} st)
        else if is_quantifier c then
          match items (current st) with
          | r :: rest =>
              r' ← requantify c r;
              Some (set_current
                      {| alts := alts (current st); items := r' :: rest |} st)
          | [] => None
          end
        else if Ascii.eqb c "." then Some (push (Chr Any) st)
        else if unsupported c then None
        else Some (push (Chr (Only c)) st)
    end.

(** The tokens are read from left to right. *)
Fixpoint psteps (st : pstate) (ts : list token) : option pstate :=
  match ts with
  | [] => Some st
  | t :: ts' => st' ← pstep st t; psteps st' ts'
  end.

(** At the end every group must be closed and no backslash left pending. *)
Definition finish (st : pstate) : option re :=
  match inner st, escaped st with
  | [], false => Some (close_frame (bottom st))
  | _, _ => None
  end.

(** Modelled from the spec: the matching expression of a token list. *)
Definition parse (ts : list token) : option re :=
  st ← psteps initial ts; finish st.

(** *** Matching *)

(** The first alternative that succeeds. *)
Definition orelse {A} (x y : option A) : option A :=
  match x with
  | Some a => Some a
  | None => y
  end.

Section matcher.
Context {A : Type}.

(** One character of the set, then the rest of the pattern. *)
Definition one (cs : cset) (s : list ascii) (k : list ascii → option A)
  : option A :=
  match s with
  | c :: s' => if mem cs c then k s' else None
  | [] => None
  end.

(** Modelled from the spec: a greedy repetition tries "the longest possible
    run consistent with the rest of the pattern" first, a lazy one "the
    shortest"; [k] is the rest of the pattern. *)
Fixpoint star (cs : cset) (greedy : bool) (s : list ascii)
    (k : list ascii → option A) : option A :=
  match s with
  | c :: s' =>
      if mem cs c then
        if greedy then orelse (star cs greedy s' k) (k s)
        else orelse (k s) (star cs greedy s' k)
      else k s
  | [] => k s
  end.

(** A quantified character, then the rest of the pattern. *)
Definition repeat (cs : cset) (q : quant) (greedy : bool) (s : list ascii)
    (k : list ascii → option A) : option A :=
  match q with
  | ZeroOrMore => star cs greedy s k
  | OneOrMore => one cs s (λ s', star cs greedy s' k)
  | ZeroOrOne =>
      if greedy then orelse (one cs s k) (k s) else orelse (k s) (one cs s k)
  end.
End matcher.

(** Modelled from the spec: "an ordered, hashable mapping from key-part name
    to captured string value", two keys being equal "regardless of part
    order". *)
Abbreviation MultiPartKey := (gmap string string).

(** The text read between [s] and its suffix [s']. *)
Definition consumed (s s' : list ascii) : string :=
  String.string_of_list_ascii (take (length s - length s') s).

(** Modelled from the spec: matching in the order of a backtracking engine.
    [run r s e k] matches [r] at the front of [s] with the captures [e] made
    so far and hands what is left to [k], the rest of the pattern; the first
    way of matching [r] that [k] accepts is the answer.  The standalone
    wildcard "matches one or more characters excluding the path separator";
    a capture value is the "raw substring" read by its placeholder. *)
Fixpoint run (r : re) (s : list ascii) (e : MultiPartKey)
    (k : list ascii → MultiPartKey → option MultiPartKey) : option MultiPartKey :=
  match r with
  | Eps => k s e
  | Chr cs => one cs s (λ s', k s' e)
  | Rep cs q greedy => repeat cs q greedy s (λ s', k s' e)
  | Segment => repeat (Not Sep) OneOrMore true s (λ s', k s' e)
  | Seq r1 r2 => run r1 s e (λ s' e', run r2 s' e' k)
  | Alt r1 r2 => orelse (run r1 s e k) (run r2 s e k)
  | Group r' => run r' s e k
  | Capture n r' => run r' s e (λ s' e', k s' (<[n := consumed s s']> e'))
  end.

(** The end of the pattern: nothing of the text may be left. *)
Definition at_end (s : list ascii) (e : MultiPartKey) : option MultiPartKey :=
  match s with
  | [] => Some e
  | _ :: _ => None
  end.

(** Modelled from the spec: "the compiled expression is anchored: it must
    match the entire path string" (rule 5). *)
Definition fullmatch (r : re) (path : string) : option MultiPartKey :=
  run r (String.list_ascii_of_string path) ∅ at_end.

(** Modelled from the spec: a compiled pattern, "a matcher object" that
    "exposes the ordered list of named key parts". *)
Record PathParser := { regex : re; parts : list string }.

(** Modelled from the spec: [PathParser(pattern)]. *)
Definition compile (pattern : string) : option PathParser :=
  ts ← tokens pattern;
  r ← parse ts;
  Some {| regex := r; parts := names ts |}.

(** Modelled from the spec: [match(path) -> key | none]. *)
Definition call (p : PathParser) (path : string) : option MultiPartKey :=
  fullmatch (regex p) path.

(** Modelled from the spec: [PathParser(pattern)(path)]; [None] when the
    pattern does not compile, [Some None] for the no-match result. *)
Definition matches (pattern path : string) : option (option MultiPartKey) :=
  p ← compile pattern; Some (call p path).

End PathParser.

(** ** Tags built from patterns *)

(** The parser of a multi-part or distributable tag: the compiled pattern,
    whose match is the [MultiPartKey] of the file. *)
Definition parser_of (p : PathParser.PathParser) : Files.Parser :=
  {| Files.call := λ path, Files.MultiPart <$> PathParser.call p path;
     Files.key_parts := PathParser.parts p |}.

(** A parser that never matches, for a pattern that does not compile. *)
Definition no_parser : Files.Parser :=
  {| Files.call := λ _, None; Files.key_parts := [] |}.

Definition pattern_parser (pattern : string) : Files.Parser :=
  from_option parser_of no_parser (PathParser.compile pattern).

(** A parser given by its table, for tags whose match is the group key itself. *)
Definition table_parser (table : list (Path * Files.Key)) : Files.Parser :=
  {| Files.call := λ path, Dict.get path table; Files.key_parts := [] |}.

(** ** Notions used to state the properties of [files.py] *)

Module Routing.
Import Files.

(** The paths a stored value holds. *)
Definition paths_of (ps : Paths) : list Path :=
  match ps with
  | One p => [p]
  | Many l => l
  end.

(** [holds c file]: [file] is stored somewhere in the collection [c]. *)
Definition holds (c : FileCollection) (file : Path) : Prop :=
  ∃ key ps, Dict.get key (files c) = Some ps ∧ file ∈ paths_of ps.

(** The first tag of the list that matches [file], with the key it gives. *)
Fixpoint first_match (tags : list Tag) (file : Path) : option (nat * Key) :=
  match tags with
  | [] => None
  | t :: tags' =>
      match call (parser t) file with
      | Some key => Some (0, key)
      | None => prod_map S id <$> first_match tags' file
      end
  end.

(** What [add_if_matches] stores at a key that held [old]. *)
Definition updated (multiple : bool) (file : Path) (old : option Paths)
  : result Paths :=
  if multiple then
    match old with
    | None => Ok (Many [file])
    | Some (Many ps) => Ok (Many (ps ++ [file]))
    | Some (One _) => Raise AttributeError
    end
  else
    match old with
    | None => Ok (One file)
    | Some _ => Raise (ValueError file)
    end.

(** The value a collection holds at a key to which the files [l] were routed,
    in this order. *)
Definition stored (multiple : bool) (l : list Path) : option Paths :=
  match l with
  | [] => None
  | p :: _ => Some (if multiple then Many l else One p)
  end.

(** The files of [fs] that go to the tag of index [j] under the key [key]. *)
Definition routed (tags : list Tag) (j : nat) (key : Key) (fs : list Path)
  : list Path :=
  filter (λ f, first_match tags f = Some (j, key)) fs.

(** The state of the collections after [find_by_tag] has gone through [fs]. *)
Record routing (tags : list Tag) (fs : list Path)
    (cols : list FileCollection) : Prop := {
  routing_tags : tag <$> cols = tags;
  routing_wf : ∀ c, c ∈ cols → Dict.wf (files c);
  routing_files : ∀ j c key, cols !! j = Some c →
    Dict.get key (files c) = stored (allow_multiple (tag c)) (routed tags j key fs);
  routing_single : ∀ j c key, cols !! j = Some c →
    allow_multiple (tag c) = false → length (routed tags j key fs) ≤ 1
}.

(** A sequence of calls of [add_if_matches] on one collection. *)
Definition add_all (c : FileCollection) (fs : list Path)
  : result FileCollection :=
  foldM (λ c file, r ← add_if_matches c file; Ok r.2) c fs.

Definition is_distributable (c : FileCollection) : bool :=
  match kind (tag c) with
  | DistributableTag _ => true
  | _ => false
  end.

(** The three lists of [_sort_collections_by_type]. *)
Definition multi_part_collections (cs : list FileCollection) :=
  (_sort_collections_by_type cs).1.1.
Definition distributable_collections (cs : list FileCollection) :=
  (_sort_collections_by_type cs).1.2.
Definition single_part_collections (cs : list FileCollection) :=
  (_sort_collections_by_type cs).2.

(** The join key of line 74 for a multi-part key. *)
Definition reduced (over : list string) (parts : MultiPartKey) : MultiPartKey :=
  filter (λ kv, kv.1 ∉ over) parts.

(** What the loop of lines 73-77 leaves in the group of key [key]. *)
Definition joined (c : FileCollection) (key : Key) (group : Group) : Group :=
  match key with
  | MultiPart parts =>
      match Dict.get (MultiPart (reduced (distribute_over (tag c)) parts))
                     (files c) with
      | Some path => Dict.set (name (tag c)) path group
      | None => group
      end
  | Formatted _ => group
  end.

End Routing.

(** ** The scenarios of section 8 of the specification *)

Module Scenario.
Import Files.

Definition multi_part (n : TagName) (pattern : string) : Tag :=
  {| name := n; parser := pattern_parser pattern;
     allow_multiple := false; kind := MultiPartTag |}.

Definition image : Tag := multi_part "image" "{id}.jpg".
Definition caption : Tag := multi_part "caption" "{id}.txt".

(** A tag whose key forgets the directory: two directories can collide. *)
Definition photo : Tag := multi_part "photo" ".*/{id}.jpg".
Definition thumb : Tag := multi_part "thumb" ".*/{id}.jpg".

Definition crop : Tag := multi_part "crop" "{id}_{crop_index}.jpg".

Definition shared_caption : Tag :=
  {| name := "caption"; parser := pattern_parser "{id}.txt";
     allow_multiple := false; kind := DistributableTag ["crop_index"] |}.

Definition pages : Tag :=
  {| name := "pages"; parser := pattern_parser "{doc}/.*";
     allow_multiple := true; kind := MultiPartTag |}.

Definition readme : Tag :=
  {| name := "readme";
     parser := table_parser [("README.md", Formatted "1_0")];
     allow_multiple := false; kind := SinglePartTag |}.

(** A key formatter: the values of the parts named in [order], joined. *)
Definition format_parts (order : list string) (key : Key) : GroupKey :=
  match key with
  | MultiPart parts => String.concat "_" (omap (λ n, parts !! n) order)
  | Formatted g => g
  end.

Definition key_of (l : list (string * string)) : Key :=
  MultiPart (list_to_map l).

(** What [find_by_tag] answers on the files of the first scenario (and one
    file that no tag matches). *)
Definition routed_collections : list FileCollection :=
  [ {| tag := image;
       files := [(key_of [("id", "1")], One "1.jpg");
                 (key_of [("id", "2")], One "2.jpg")] |};
    {| tag := caption; files := [(key_of [("id", "1")], One "1.txt")] |} ].

(** The groups of two crops of one image, as phase 1 builds them, and the
    collection of the caption they share. *)
Definition crop_groups : dict Key Group :=
  [(key_of [("id", "1"); ("crop_index", "0")], [("crop", One "1_0.jpg")]);
   (key_of [("id", "1"); ("crop_index", "1")], [("crop", One "1_1.jpg")]);
   (key_of [("id", "2"); ("crop_index", "0")], [("crop", One "2_0.jpg")])].

Definition caption_collection : FileCollection :=
  {| tag := shared_caption; files := [(key_of [("id", "1")], One "1.txt")] |}.

End Scenario.

(** ** Notions used to state the properties of patterns *)

Module Pattern.
Import PathParser.













(** What is left of [{a}-{b}] after its first placeholder: a dash, then the
    rest of the text, not empty, as the second part. *)
Definition dash (e : MultiPartKey) (s : list ascii) : option MultiPartKey :=
  match s with
  | c :: c' :: s' =>
      if Ascii.eqb c "-"
      then Some (<["b" := String.string_of_list_ascii (c' :: s')]> e)
      else None
  | _ => None
  end.

(** The expression of [{a}-{b}], the first placeholder greedy or not. *)
Definition two_parts (greedy : bool) : re :=
  Seq (Capture "a" (Rep Any OneOrMore greedy))
      (Seq (Chr (Only "-")) (Seq (Capture "b" (Rep Any OneOrMore false)) Eps)).



(** The reader's state after a plain sequence of items (most recent first):
    no group is open and no [|] was read at top level. *)
Definition sequence_state (its : list re) : pstate :=
  {| bottom := {| alts := []; items := its |}; inner := []; escaped := false |}.




End Pattern.

(** ** Notions used to state the order and the content of the groups *)

Module Grouping.
Import Files Routing.

(** The keys of a dictionary once [x] was given to it: a new key goes
    last, a known key changes nothing. *)
Definition see {A : Type} `{EqDecision A} (seen : list A) (x : A) : list A :=
  if decide (x ∈ seen) then seen else seen ++ [x].

(** The distinct elements of a list in the order of their first occurrence:
    the order in which a dictionary lists the keys it was given. *)
Definition first_seen {A : Type} `{EqDecision A} (l : list A) : list A :=
  foldl see [] l.

(** [collision tags earlier_files file]: by first match, [file] goes to a
    key of a tag with [allow_multiple = false] where one of the earlier files
    went. *)
Definition collision (tags : list Tag) (earlier_files : list Path)
    (file : Path) : Prop :=
  ∃ j t key earlier,
    tags !! j = Some t ∧ allow_multiple t = false
    ∧ first_match tags file = Some (j, key)
    ∧ earlier ∈ earlier_files ∧ first_match tags earlier = Some (j, key).

(** The keys under which the files of [fs] go to the tag of index [j], one
    for each file that goes there, in the order of the files. *)
Definition keys_routed (tags : list Tag) (j : nat) (fs : list Path)
  : list Key :=
  omap (λ f, match first_match tags f with
             | Some (i, key) => if decide (i = j) then Some key else None
             | None => None
             end) fs.

Definition is_multi_part (c : FileCollection) : bool :=
  match kind (tag c) with
  | MultiPartTag => true
  | _ => false
  end.

Definition is_single_part (c : FileCollection) : bool :=
  match kind (tag c) with
  | SinglePartTag => true
  | _ => false
  end.

(** The keys of the collections of a list, collection after collection. *)
Definition all_keys (cs : list FileCollection) : list Key :=
  c ← cs; Dict.keys (files c).

(** [entry groups key n paths]: the group of key [key] holds [paths] under
    the tag name [n]. *)
Definition entry (groups : dict Key Group) (key : Key) (n : TagName)
    (paths : Paths) : Prop :=
  ∃ group, Dict.get key groups = Some group ∧ Dict.get n group = Some paths.

(** What a distributable collection has for the group of key [parts]: the
    value it stores under the key without the parts it is distributed
    over. *)
Definition offered (c : FileCollection) (parts : MultiPartKey)
  : option Paths :=
  Dict.get (MultiPart (reduced (distribute_over (tag c)) parts)) (files c).

(** [stores c paths]: [paths] is one of the values of [c.files]. *)
Definition stores (c : FileCollection) (paths : Paths) : Prop :=
  ∃ key, (key, paths) ∈ files c.

(** Every entry of every group is a value of a collection of [cs] whose tag
    has the name of the entry. *)
Definition traced (cs : list FileCollection) (groups : dict Key Group) : Prop :=
  ∀ key group n paths,
    (key, group) ∈ groups → Dict.get n group = Some paths →
    ∃ c, c ∈ cs ∧ name (tag c) = n ∧ stores c paths.

(** The groups built in phase 1 (lines 68-71): the multi-part collections
    poured into an empty dictionary. *)
Definition phase_1 (cs : list FileCollection) : dict Key Group :=
  foldl collect [] (multi_part_collections cs).

(** The collection of the crops whose groups are [Scenario.crop_groups]. *)
Definition crop_collection : FileCollection :=
  {| tag := Scenario.crop;
     files := [(Scenario.key_of [("id", "1"); ("crop_index", "0")],
                One "1_0.jpg");
               (Scenario.key_of [("id", "1"); ("crop_index", "1")],
                One "1_1.jpg");
               (Scenario.key_of [("id", "2"); ("crop_index", "0")],
                One "2_0.jpg")] |}.

(** A single-part tag: the notes name the group they belong to. *)
Definition notes : Tag :=
  {| name := "notes";
     parser := table_parser [("notes/1.md", Formatted "1");
                             ("notes/9.md", Formatted "9")];
     allow_multiple := false; kind := SinglePartTag |}.

Definition notes_collection : FileCollection :=
  {| tag := notes;
     files := [(Formatted "1", One "notes/1.md");
               (Formatted "9", One "notes/9.md")] |}.

(** What [group_by_key] answers on [Scenario.routed_collections] followed
    by [notes_collection], the formatter being the value of the part [id]. *)
Definition noted_groups : dict Key Group :=
  [(Formatted "1", [("image", One "1.jpg"); ("caption", One "1.txt");
                    ("notes", One "notes/1.md")]);
   (Formatted "2", [("image", One "2.jpg")]);
   (Formatted "9", [("notes", One "notes/9.md")])].

(** A caption for one crop alone: a distributable tag with the same name as
    [Scenario.shared_caption] and one key part more. *)
Definition crop_caption : Tag :=
  {| name := "caption"; parser := pattern_parser "{id}_{crop_index}.txt";
     allow_multiple := false; kind := DistributableTag [] |}.

Definition crop_caption_collection : FileCollection :=
  {| tag := crop_caption;
     files := [(Scenario.key_of [("id", "1"); ("crop_index", "0")],
                One "1_0.txt")] |}.

(** What [group_by_key] answers on [Scenario.routed_collections] when the
    formatter is the value of the part [id]. *)
Definition routed_groups : dict Key Group :=
  [(Formatted "1", [("image", One "1.jpg"); ("caption", One "1.txt")]);
   (Formatted "2", [("image", One "2.jpg")])].

End Grouping.

(** ** [grob/core/output_formatters.py]

    The groups of [group_by_key] on their way to a stream.  The two libraries
    that do the writing, [json] and [csv], are not embedded: a formatter
    answers the value it hands to them.  A [Path] stands for its POSIX text,
    so [as_posix] is the identity; [Path.relative_to] belongs to [pathlib]
    and is a parameter. *)

Module OutputFormatters.
Import Files.

(** The exceptions of this module: the [ValueError] of
    [path.relative_to(base)], the [KeyError] of a dictionary lookup, the
    [TypeError] of a call that misses a required argument, and
    [NotImplementedError]. *)
Inductive error :=
| RelativeToError (path base : Path)
| KeyError (key : string)
| TypeError
| NotImplementedError.

Inductive outcome (A : Type) :=
| Returns (a : A)
| Raises (e : error).
Global Arguments Returns {A} a.
Global Arguments Raises {A} e.

Global Instance outcome_ret : MRet outcome := λ A a, Returns a.
Global Instance outcome_bind : MBind outcome := λ A B f m,
  match m with
  | Returns a => f a
  | Raises e => Raises e
  end.

(** A loop or a comprehension whose body can raise: it stops at the first
    exception. *)
Fixpoint each {A B : Type} (f : A → outcome B) (l : list A) : outcome (list B) :=
  match l with
  | [] => Returns []
  | x :: l' => y ← f x; l'' ← each f l'; Returns (y :: l'')
  end.

(** [FormattedGroup]: a whole [Group] or, once squeezed, what the group holds
    under the only tag name ([None] when it holds nothing there). *)
Definition FormattedGroup (squeezed : bool) : Type :=
  if squeezed then option Paths else Group.

(** [Groups]: a dictionary when the keys are kept, a list otherwise.  The
    flags [squeezed] and [with_keys] travel with the groups they describe. *)
Definition Groups (squeezed with_keys : bool) : Type :=
  if with_keys then dict Key (FormattedGroup squeezed)
  else list (FormattedGroup squeezed).

(** Lines 62-64: [groups] itself, or [list(groups.values())]. *)
Definition keyed_or_listed {squeezed : bool} (with_keys : bool)
    (groups : dict Key (FormattedGroup squeezed)) : Groups squeezed with_keys :=
  match with_keys return Groups squeezed with_keys with
  | true => groups
  | false => groups.*2
  end.

(** Line 60: [{key: group.get(tag_name) for key, group in groups.items()}] *)
Definition squeezed_groups (tag_name : TagName) (groups : dict Key Group)
  : dict Key (FormattedGroup true) :=
  (λ item, (item.1, Dict.get tag_name item.2)) <$> groups.

(** *** [TableOutputFormatter] *)

(** The values [_format_path] looks at: [None], a string or a path, alone or
    in a list. *)
Inductive PathLike :=
| NoPath
| Text (s : string)
| APath (p : Path).

Inductive PathOrPaths :=
| Single (x : PathLike)
| Listed (l : list PathLike).

Definition as_posix (p : Path) : string := p.

Definition _format_path (path_or_paths : PathOrPaths) : string :=
  let paths :=
    match path_or_paths with
    | Listed l => l
    | Single x => [x]
    end in
  let formatted_paths :=
    omap (λ path, match path with
                  | NoPath => None
                  | Text s => Some s
                  | APath p => Some (as_posix p)
                  end) paths in
  String.concat ", " formatted_paths.

(** A value of a group, as [_format_path] receives it. *)
Definition stored_value (value : Paths) : PathOrPaths :=
  match value with
  | One p => Single (APath p)
  | Many ps => Listed (APath <$> ps)
  end.

(** Lines 119-122: the texts of one row; [group.get(tag_name, "")] for a
    whole group, the squeezed value itself otherwise. *)
Definition row_files (squeezed : bool) (tag_names : list TagName)
  : FormattedGroup squeezed → list string :=
  match squeezed return FormattedGroup squeezed → list string with
  | true => λ group, [_format_path (from_option stored_value (Single NoPath) group)]
  | false => λ group,
      (λ tag_name,
         _format_path (from_option stored_value (Single (Text ""))
                         (Dict.get tag_name group))) <$> tag_names
  end.

(** A cell of a row: the key of the group as it is, or a text. *)
Inductive Cell :=
| KeyCell (key : Key)
| TextCell (text : string).

Definition _iter_rows (squeezed with_keys : bool)
    (groups : Groups squeezed with_keys) (tag_names : list TagName)
  : list (list Cell) :=
  let header := if squeezed then ["files"] else tag_names in
  let header := if with_keys then "key" :: header else header in
  (TextCell <$> header)
  :: match with_keys return Groups squeezed with_keys → list (list Cell) with
     | true => λ groups,
         (λ item, KeyCell item.1
                  :: (TextCell <$> row_files squeezed tag_names item.2))
           <$> groups
     | false => λ groups,
         (λ group, TextCell <$> row_files squeezed tag_names group) <$> groups
     end groups.

(** *** [JsonlOutputFormatter] *)

(** A record of the output: [{"key": key, label: group}], or the group
    alone. *)
Inductive JsonRecord (squeezed : bool) :=
| WithKey (key : Key) (label : string) (group : FormattedGroup squeezed)
| Bare (group : FormattedGroup squeezed).
Global Arguments WithKey {squeezed} key label group.
Global Arguments Bare {squeezed} group.

Definition _iter_records (squeezed with_keys : bool)
    (groups : Groups squeezed with_keys) : list (JsonRecord squeezed) :=
  match with_keys return Groups squeezed with_keys → list (JsonRecord squeezed)
  with
  | true => λ groups,
      (λ item, WithKey item.1 (if squeezed then "file" else "files") item.2)
        <$> groups
  | false => λ groups, Bare <$> groups
  end groups.

(** *** The formatters and their table *)

Inductive Formatter :=
| JsonOutputFormatter
| JsonlOutputFormatter
| TableOutputFormatter (delimiter line_terminator : string)
| HumanOutputFormatter (delimiter line_terminator : string).

Definition tab : string := String "009" "".
Definition newline : string := String "010" "".

(** [TableOutputFormatter.__init__], which [HumanOutputFormatter] inherits:
    [separator] has no default value, [line_terminator] has one. *)
Definition __init__ (cls : string → string → Formatter)
    (separator : option string) : outcome Formatter :=
  match separator with
  | Some s => Returns (cls s newline)
  | None => Raises TypeError
  end.

(** [_FORMATTERS]: each entry is called with no argument. *)
Definition _FORMATTERS : dict string (unit → outcome Formatter) :=
  [("human", λ _, __init__ HumanOutputFormatter None);
   ("json", λ _, Returns JsonOutputFormatter);
   ("jsonl", λ _, Returns JsonlOutputFormatter);
   ("csv", λ _, __init__ TableOutputFormatter (Some ","));
   ("tsv", λ _, __init__ TableOutputFormatter (Some tab))].

(** What a formatter gives to the library that writes the stream:
    [json.dump(groups)], one [json.dumps(record)] a line, or the rows of a
    [csv.writer]. *)
Inductive Output :=
| JsonDump (squeezed with_keys : bool) (groups : Groups squeezed with_keys)
| JsonLines (squeezed : bool) (records : list (JsonRecord squeezed))
| CsvRows (delimiter line_terminator : string) (rows : list (list Cell)).

(** [formatter(groups, stream, tag_names=..., with_keys=..., squeezed=...)] *)
Definition __call__ (formatter : Formatter) (squeezed with_keys : bool)
    (groups : Groups squeezed with_keys) (tag_names : list TagName)
  : outcome Output :=
  match formatter with
  | JsonOutputFormatter => Returns (JsonDump squeezed with_keys groups)
  | JsonlOutputFormatter =>
      Returns (JsonLines squeezed (_iter_records squeezed with_keys groups))
  | TableOutputFormatter delimiter line_terminator =>
      Returns (CsvRows delimiter line_terminator
                 (_iter_rows squeezed with_keys groups tag_names))
  | HumanOutputFormatter _ _ => Raises NotImplementedError
  end.

Section pathlib.
(** [relative_to_path path base] is [path.relative_to(base)], or [None] when
    [pathlib] raises [ValueError]. *)
Variable relative_to_path : Path → Path → option Path.

Definition relative (base path : Path) : outcome Path :=
  match relative_to_path path base with
  | Some relative_path => Returns relative_path
  | None => Raises (RelativeToError path base)
  end.

(** Lines 53-56: the new value of [group[tag]].  The values of a [Group] are
    paths and lists of paths, none of them [None]. *)
Definition relative_value (base : Path) (value : Paths) : outcome Paths :=
  match value with
  | Many paths => paths ← each (relative base) paths; Returns (Many paths)
  | One path => path ← relative base path; Returns (One path)
  end.

(** Lines 51-56: the loop rewrites the groups of its argument in place, so
    the outcome is the dictionary the caller holds after the loop.  This is
    the loop on the groups [group_by_key] builds: each key holds a group of
    its own, whose values are paths.  [InPlace.relative_in_place] is the loop
    on objects that keys can share and on values that can be [None]; the
    two agree on the groups of [group_by_key]. *)
Definition relative_groups (base : Path) (groups : dict Key Group)
  : outcome (dict Key Group) :=
  each (λ item,
          group ← each (λ entry, value ← relative_value base entry.2;
                                 Returns (entry.1, value)) item.2;
          Returns (item.1, group)) groups.

(** [prepare_groups]: the dictionary the caller passed, as the call leaves
    it, and the pair the call returns. *)
Definition prepare_groups (groups : dict Key Group) (tag_names : list TagName)
    (relative_to : option Path) (squeeze with_keys : bool)
  : outcome (dict Key Group * {squeezed : bool & Groups squeezed with_keys}) :=
  groups ← match relative_to with
           | Some base => relative_groups base groups
           | None => Returns groups
           end;
  Returns (groups,
           match squeeze, tag_names with
           | true, [tag_name] =>
               existT true (keyed_or_listed with_keys
                              (squeezed_groups tag_name groups))
           | _, _ =>
               existT false (keyed_or_listed (squeezed := false) with_keys groups)
           end).

(** [format_groups]: the caller's dictionary after the call, and what is
    written. *)
Definition format_groups (groups : dict Key Group) (tag_names : list TagName)
    (relative_to : option Path) (squeeze with_keys : bool)
    (output_format : string) : outcome (dict Key Group * Output) :=
  prepared ← prepare_groups groups tag_names relative_to squeeze with_keys;
  let '(groups, existT squeezed prepared_groups) := prepared in
  make ← from_option Returns (Raises (KeyError output_format))
           (Dict.get output_format _FORMATTERS);
  formatter ← make ();
  output ← __call__ formatter squeezed with_keys prepared_groups tag_names;
  Returns (groups, output).
End pathlib.

End OutputFormatters.

(** ** The loop of [prepare_groups] on shared objects

    The groups are objects, and the loop of lines 51-56 rewrites them where
    they are: a group that two keys hold is met twice.  Here the objects
    live in a heap and the dictionary holds references to them; a value can
    be [None], or a list with [None] among its elements, as the loop allows
    for. *)

Module InPlace.
Import Files OutputFormatters.

Inductive Value :=
| Scalar (path : option Path)
| ListOf (paths : list (option Path)).

Abbreviation GroupObject := (dict TagName Value).

Section pathlib.
Variable relative_to_path : Path → Path → option Path.

(** [path.relative_to(relative_to) if path is not None else path] *)
Definition relative_unless_none (base : Path) (path : option Path)
  : outcome (option Path) :=
  match path with
  | Some path => path ← relative relative_to_path base path; Returns (Some path)
  | None => Returns None
  end.

(** Lines 53-56: the new value of [group[tag]]. *)
Definition relative_in_value (base : Path) (value : Value) : outcome Value :=
  match value with
  | ListOf paths =>
      paths ← each (relative_unless_none base) paths; Returns (ListOf paths)
  | Scalar path =>
      path ← relative_unless_none base path; Returns (Scalar path)
  end.

(** Lines 52-56: one group object, tag after tag. *)
Definition relative_in_group (base : Path) (group : GroupObject)
  : outcome GroupObject :=
  each (λ entry, value ← relative_in_value base entry.2;
                 Returns (entry.1, value)) group.

(** Lines 51-56: [values] are the references [groups.values()] gives, in
    order, and the outcome is the heap after the loop.  A reference is an
    index of the heap. *)
Fixpoint relative_in_place (base : Path) (values : list nat)
    (heap : list GroupObject) : outcome (list GroupObject) :=
  match values with
  | [] => Returns heap
  | r :: values' =>
      match heap !! r with
      | Some group =>
          group ← relative_in_group base group;
          relative_in_place base values' (<[r := group]> heap)
      | None => relative_in_place base values' heap
      end
  end.
End pathlib.

End InPlace.

(** ** Notions used to state the properties of the formatters *)

Module Formatting.
Import Files Routing.

(** Every path of every group, in the order the loops of [prepare_groups]
    meet them. *)
Definition all_paths (groups : dict Key Group) : list Path :=
  item ← groups; entry ← item.2; paths_of entry.2.

(** The groups with [f] applied to each of their paths. *)
Definition map_value (f : Path → Path) (value : Paths) : Paths :=
  match value with
  | One p => One (f p)
  | Many ps => Many (f <$> ps)
  end.

Definition map_paths (f : Path → Path) (groups : dict Key Group)
  : dict Key Group :=
  (λ item : Key * Group,
     (item.1, (λ entry : TagName * Paths, (entry.1, map_value f entry.2))
                <$> (item.2 : list (TagName * Paths))))
    <$> (groups : list (Key * Group)).

(** What a cell of a table shows for the value a group holds under a tag. *)
Definition cell_text (value : option Paths) : string :=
  match value with
  | None => ""
  | Some (One p) => p
  | Some (Many ps) => String.concat ", " ps
  end.

(** The answers of [path.relative_to(base)]: it returns, or it raises [e];
    and the path after [prepare_groups] when it returns. *)
Definition relative_ok (relative_to_path : Path → Path → option Path)
    (base path : Path) : Prop :=
  is_Some (relative_to_path path base).

Definition relative_bad (relative_to_path : Path → Path → option Path)
    (base path : Path) (e : OutputFormatters.error) : Prop :=
  e = OutputFormatters.RelativeToError path base
  ∧ relative_to_path path base = None.

Definition relative_or_same (relative_to_path : Path → Path → option Path)
    (base path : Path) : Path :=
  default path (relative_to_path path base).

(** Every path of the groups is relative to the base, when there is one. *)
Definition relative_everywhere (relative_to_path : Path → Path → option Path)
    (relative_to : option Path) (groups : dict Key Group) : Prop :=
  ∀ base path, relative_to = Some base → path ∈ all_paths groups →
               is_Some (relative_to_path path base).

(** The header and the rows of a table. *)
Definition table_header (tag_names : list TagName) (squeeze with_keys : bool)
  : list string :=
  (if with_keys then ["key"] else [])
  ++ match squeeze, tag_names with
     | true, [_] => ["files"]
     | _, _ => tag_names
     end.

Definition table_row (tag_names : list TagName) (with_keys : bool)
    (item : Key * Group) : list OutputFormatters.Cell :=
  (if with_keys then [OutputFormatters.KeyCell item.1] else [])
  ++ ((λ tag_name, OutputFormatters.TextCell
                     (cell_text (Dict.get tag_name item.2))) <$> tag_names).

(** *** The groups as objects *)

(** The paths of a value, of a group object, and those the loop meets when
    it visits [values]: [None] is not a path. *)
Definition value_paths (value : InPlace.Value) : list Path :=
  match value with
  | InPlace.Scalar path => option_list path
  | InPlace.ListOf paths => paths ≫= option_list
  end.

Definition group_paths (group : InPlace.GroupObject) : list Path :=
  entry ← group; value_paths entry.2.

Definition visited_paths (values : list nat)
    (heap : list InPlace.GroupObject) : list Path :=
  r ← values; from_option group_paths [] (heap !! r).

(** A group object with [f] applied to each of its paths. *)
Definition map_in_value (f : Path → Path) (value : InPlace.Value)
  : InPlace.Value :=
  match value with
  | InPlace.Scalar path => InPlace.Scalar (fmap (M := option) f path)
  | InPlace.ListOf paths =>
      InPlace.ListOf (fmap (M := list) (fmap (M := option) f) paths)
  end.

Definition map_in_group (f : Path → Path) (group : InPlace.GroupObject)
  : InPlace.GroupObject :=
  (λ entry : TagName * InPlace.Value, (entry.1, map_in_value f entry.2))
    <$> (group : list (TagName * InPlace.Value)).

(** A group of [group_by_key] as an object, and the heap of the groups of a
    dictionary, each key holding an object of its own. *)
Definition object_value (value : Paths) : InPlace.Value :=
  match value with
  | One p => InPlace.Scalar (Some p)
  | Many ps => InPlace.ListOf (Some <$> ps)
  end.

Definition object_of (group : Group) : InPlace.GroupObject :=
  (λ entry : TagName * Paths, (entry.1, object_value entry.2))
    <$> (group : list (TagName * Paths)).

Definition heap_of (groups : dict Key Group) : list InPlace.GroupObject :=
  object_of <$> (groups : list (Key * Group)).*2.

(** A stand-in for [Path.relative_to] on plain texts: what follows the base
    and a separator. *)
Fixpoint under (path base : string) : option string :=
  match base, path with
  | EmptyString, String "/" rest => Some rest
  | String b base', String c path' =>
      if decide (b = c) then under path' base' else None
  | _, _ => None
  end.

(** One group object that two keys hold. *)
Definition shared_heap : list InPlace.GroupObject :=
  [[("image", InPlace.Scalar (Some "base/1.jpg"));
    ("caption", InPlace.Scalar None)]].

(** The table of [Grouping.routed_groups] for the tags [image] and
    [caption], with the keys. *)
Definition routed_table : list (list OutputFormatters.Cell) :=
  [ [OutputFormatters.TextCell "key"; OutputFormatters.TextCell "image";
     OutputFormatters.TextCell "caption"];
    [OutputFormatters.KeyCell (Formatted "1");
     OutputFormatters.TextCell "1.jpg"; OutputFormatters.TextCell "1.txt"];
    [OutputFormatters.KeyCell (Formatted "2");
     OutputFormatters.TextCell "2.jpg"; OutputFormatters.TextCell ""] ].

End Formatting.

(** * Properties *)

(** ** Dictionaries *)

Section dict_facts.
Context {K V : Type} `{EqDecision K}.
Implicit Types (k : K) (v : V) (d : dict K V).

Lemma get_set_eq k v d : Dict.get k (Dict.set k v d) = Some v.
Proof.
  induction d as [|[k' v'] d IH]; simpl.
  - by rewrite decide_True.
  - destruct (decide (k = k')) as [->|Hne]; simpl.
    + by rewrite decide_True.
    + by rewrite decide_False.
Qed.

Lemma get_set_ne k k' v d :
  k ≠ k' → Dict.get k' (Dict.set k v d) = Dict.get k' d.
Proof.
  intros Hne. induction d as [|[k2 v2] d IH]; simpl.
  - by rewrite decide_False.
  - destruct (decide (k = k2)) as [->|Hne2]; simpl.
    + by rewrite !decide_False.
    + destruct (decide (k' = k2)); done.
Qed.

Lemma get_set k k' v d :
  Dict.get k' (Dict.set k v d)
  = if decide (k = k') then Some v else Dict.get k' d.
Proof.
  destruct (decide (k = k')) as [->|Hne];
    [apply get_set_eq | by apply get_set_ne].
Qed.

Lemma get_None k d : Dict.get k d = None ↔ k ∉ Dict.keys d.
Proof.
  induction d as [|[k' v'] d IH]; simpl.
  - split; [intros _; apply not_elem_of_nil | done].
  - rewrite not_elem_of_cons. destruct (decide (k = k')) as [->|Hne].
    + split; [done | intros [? _]; done].
    + rewrite IH. tauto.
Qed.

Lemma get_Some_elem k v d : Dict.get k d = Some v → (k, v) ∈ d.
Proof.
  induction d as [|[k' v'] d IH]; simpl; [done|].
  destruct (decide (k = k')) as [->|Hne].
  - intros [= ->]. apply list_elem_of_here.
  - intros H. apply list_elem_of_further. by apply IH.
Qed.

Lemma elem_get k v d : Dict.wf d → (k, v) ∈ d → Dict.get k d = Some v.
Proof.
  unfold Dict.wf, Dict.keys. induction d as [|[k' v'] d IH]; simpl.
  - intros _ H. by apply elem_of_nil in H.
  - rewrite NoDup_cons. intros [Hnin Hnd] Hin.
    apply elem_of_cons in Hin as [[= -> ->]|Hin].
    + by rewrite decide_True.
    + destruct (decide (k = k')) as [->|Hne]; [|by apply IH].
      exfalso. apply Hnin. apply list_elem_of_fmap. by exists (k', v).
Qed.

Lemma keys_set k v d :
  Dict.keys (Dict.set k v d)
  = if decide (k ∈ Dict.keys d) then Dict.keys d else Dict.keys d ++ [k].
Proof.
  unfold Dict.keys. induction d as [|[k' v'] d IH].
  - destruct (decide (k ∈ ([] : dict K V).*1)) as [Hin|_]; [|done].
    by apply elem_of_nil in Hin.
  - cbn [Dict.set]. destruct (decide (k = k')) as [->|Hne].
    + destruct (decide (k' ∈ ((k', v') :: d).*1)) as [_|Hnin]; [done|].
      exfalso. apply Hnin. apply list_elem_of_here.
    + rewrite !fmap_cons, IH. cbn [fst].
      destruct (decide (k ∈ d.*1)) as [Hin|Hnin];
        destruct (decide (k ∈ k' :: d.*1)) as [Hin'|Hnin']; try done.
      * exfalso. apply Hnin'. by apply list_elem_of_further.
      * apply elem_of_cons in Hin' as [?|?]; done.
Qed.

Lemma wf_set k v d : Dict.wf d → Dict.wf (Dict.set k v d).
Proof.
  unfold Dict.wf. rewrite keys_set. intros Hd.
  destruct (decide (k ∈ Dict.keys d)) as [Hin|Hnin]; [done|].
  apply NoDup_app. split_and!; [done | | apply NoDup_singleton].
  intros x Hx Hx'. apply list_elem_of_singleton in Hx' as ->. done.
Qed.

Lemma wf_nil : Dict.wf ([] : dict K V).
Proof. apply NoDup_nil_2. Qed.

(** Rebuilding the values of a dictionary leaves its keys in place. *)
Lemma get_rebuild {W} (h : K → V → W) k d :
  Dict.get k ((λ item, (item.1, h item.1 item.2)) <$> d) = h k <$> Dict.get k d.
Proof.
  induction d as [|[k' v'] d IH]; simpl; [done|].
  destruct (decide (k = k')) as [->|Hne]; done.
Qed.

Lemma keys_rebuild {W} (h : K → V → W) d :
  Dict.keys ((λ item, (item.1, h item.1 item.2)) <$> d) = Dict.keys d.
Proof. unfold Dict.keys. rewrite <-list_fmap_compose. done. Qed.

Lemma get_is_Some k d : is_Some (Dict.get k d) ↔ k ∈ Dict.keys d.
Proof.
  rewrite <-not_eq_None_Some, get_None.
  destruct (decide (k ∈ Dict.keys d)); naive_solver.
Qed.

Lemma get_app k d1 d2 :
  Dict.get k (d1 ++ d2)
  = match Dict.get k d1 with
    | Some v => Some v
    | None => Dict.get k d2
    end.
Proof.
  induction d1 as [|[k' v'] d1 IH]; simpl; [done|].
  by destruct (decide (k = k')).
Qed.

Lemma get_nil_all d : (∀ k, Dict.get k d = None) → d = [].
Proof.
  destruct d as [|[k v] d]; [done|]. intros Hall.
  specialize (Hall k). simpl in Hall. by rewrite decide_True in Hall.
Qed.
End dict_facts.

(** ** Loops *)

Lemma foldM_app {A B} (f : A → B → result A) a l1 l2 :
  foldM f a (l1 ++ l2) = (a' ← foldM f a l1; foldM f a' l2).
Proof.
  revert a. induction l1 as [|x l1 IH]; intros a; simpl; [done|].
  destruct (f a x) as [a'|e]; simpl; [apply IH | done].
Qed.

Lemma forM_pure {A B} (f : A → result B) (g : A → B) l :
  (∀ x, x ∈ l → f x = Ok (g x)) → forM f l = Ok (g <$> l).
Proof.
  induction l as [|x l IH]; intros Hf; simpl; [done|].
  rewrite Hf by apply list_elem_of_here. simpl.
  rewrite IH; [done|]. intros y Hy. apply Hf. by apply list_elem_of_further.
Qed.

(** ** Stable sorting by a key *)

Section sorted_facts.
Context {A : Type} (key : A → nat).

Lemma insert_by_perm x l : insert_by key x l ≡ₚ x :: l.
Proof.
  induction l as [|y l IH]; simpl; [done|].
  destruct (decide (key x ≤ key y)); [done|].
  rewrite IH. apply Permutation_swap.
Qed.

Lemma sorted_perm l : sorted key l ≡ₚ l.
Proof.
  induction l as [|x l IH]; simpl; [done|].
  by rewrite insert_by_perm, IH.
Qed.

Lemma insert_by_sorted x l :
  StronglySorted (by_key key) l → StronglySorted (by_key key) (insert_by key x l).
Proof.
  induction 1 as [|y l Hl IH Hy]; simpl.
  - repeat constructor.
  - destruct (decide (key x ≤ key y)) as [Hle|Hgt].
    + constructor; [by constructor|]. constructor; [done|].
      eapply Forall_impl; [exact Hy|]. unfold by_key. intros z ?. lia.
    + constructor; [done|]. rewrite insert_by_perm.
      constructor; [unfold by_key; lia | done].
Qed.

Lemma sorted_sorted l : StronglySorted (by_key key) (sorted key l).
Proof.
  induction l as [|x l IH]; simpl; [constructor|].
  by apply insert_by_sorted.
Qed.

(** Elements with equal keys keep the order they had. *)
Lemma insert_by_stable n x l :
  filter (λ y, key y = n) (insert_by key x l)
  = filter (λ y, key y = n) (x :: l).
Proof.
  induction l as [|y l IH]; simpl; [done|].
  destruct (decide (key x ≤ key y)) as [Hle|Hgt]; [done|].
  rewrite filter_cons, IH, !filter_cons.
  destruct (decide (key y = n)), (decide (key x = n)); try done. lia.
Qed.

Lemma sorted_stable n l :
  filter (λ y, key y = n) (sorted key l) = filter (λ y, key y = n) l.
Proof.
  induction l as [|x l IH]; simpl; [done|].
  by rewrite insert_by_stable, !filter_cons, IH.
Qed.

(** The keys come out in the same sequence whatever the input order. *)
Lemma sorted_keys_perm l l' :
  l ≡ₚ l' → key <$> sorted key l = key <$> sorted key l'.
Proof.
  intros Hp. apply (StronglySorted_unique le).
  - apply (StronglySorted_fmap _ (by_key key)); [done | apply sorted_sorted].
  - apply (StronglySorted_fmap _ (by_key key)); [done | apply sorted_sorted].
  - by rewrite !sorted_perm, Hp.
Qed.
End sorted_facts.

(** ** [add_if_matches] *)

Section files_facts.
Import Files Routing.

Lemma add_if_matches_no_match c file :
  call (parser (tag c)) file = None → add_if_matches c file = Ok (false, c).
Proof. unfold add_if_matches. by intros ->. Qed.

Lemma add_if_matches_match c file key :
  call (parser (tag c)) file = Some key →
  add_if_matches c file
  = (v ← updated (allow_multiple (tag c)) file (Dict.get key (files c));
     Ok (true, with_files c (Dict.set key v (files c)))).
Proof.
  unfold add_if_matches, updated. intros ->.
  destruct (allow_multiple (tag c)), (Dict.get key (files c)) as [[?|?]|]; done.
Qed.

(** On an occupied key of a single-path tag the call raises, and the
    exception carries the new file and nothing else. *)
Lemma add_if_matches_occupied c file key old :
  allow_multiple (tag c) = false →
  call (parser (tag c)) file = Some key →
  Dict.get key (files c) = Some old →
  add_if_matches c file = Raise (ValueError file).
Proof.
  intros Hm Hcall Hold. rewrite (add_if_matches_match _ _ _ Hcall), Hm, Hold.
  done.
Qed.

(** ** [find_by_tag] *)

Lemma first_match_Some tags file j key :
  first_match tags file = Some (j, key) ↔
  ∃ t, tags !! j = Some t ∧ call (parser t) file = Some key ∧
       ∀ i t', i < j → tags !! i = Some t' → call (parser t') file = None.
Proof.
  revert j. induction tags as [|t tags IH]; intros j; simpl.
  - split; [done | by intros (? & ? & _)].
  - destruct (call (parser t) file) as [key'|] eqn:Hcall.
    + split.
      * intros [= <- ->]. exists t. split_and!; [done..|]. intros i t' Hi. lia.
      * intros (t0 & Hj & Hc & Hbefore). destruct j as [|j].
        -- simpl in Hj. injection Hj as <-. congruence.
        -- specialize (Hbefore 0 t). rewrite Hbefore in Hcall; [done|lia|done].
    + rewrite fmap_Some. split.
      * intros ([j' key'] & Hfirst & [= -> ->]).
        apply IH in Hfirst as (t0 & Hj & Hc & Hbefore).
        exists t0. split_and!; [done..|]. intros [|i] t' Hi; simpl.
        -- by intros [= <-].
        -- apply Hbefore. lia.
      * intros (t0 & Hj & Hc & Hbefore). destruct j as [|j].
        -- simpl in Hj. injection Hj as <-. congruence.
        -- exists (j, key). split; [|done]. apply IH.
           exists t0. split_and!; [done..|].
           intros i t' Hi Ht'. apply (Hbefore (S i) t'); [lia | done].
Qed.

Lemma first_match_None tags file :
  first_match tags file = None ↔ ∀ t, t ∈ tags → call (parser t) file = None.
Proof.
  induction tags as [|t tags IH]; simpl.
  - split; [|done]. intros _ t Ht. by apply elem_of_nil in Ht.
  - destruct (call (parser t) file) as [key|] eqn:Hcall.
    + split; [done|]. intros Hall. specialize (Hall t).
      rewrite Hcall in Hall. discriminate Hall. apply list_elem_of_here.
    + rewrite fmap_None, IH. split.
      * intros Hall t' [->|Ht']%elem_of_cons; [done | by apply Hall].
      * intros Hall t' Ht'. apply Hall. by apply list_elem_of_further.
Qed.

Lemma route_spec file cols :
  match first_match (tag <$> cols) file with
  | None => route file cols = Ok cols
  | Some (j, key) =>
      ∃ c, cols !! j = Some c ∧ call (parser (tag c)) file = Some key ∧
           route file cols
           = (v ← updated (allow_multiple (tag c)) file (Dict.get key (files c));
              Ok (<[j := with_files c (Dict.set key v (files c))]> cols))
  end.
Proof.
  induction cols as [|c cols IH]; [done|].
  rewrite fmap_cons. cbn [first_match route].
  destruct (call (parser (tag c)) file) as [key|] eqn:Hcall.
  - exists c. split_and!; [done..|].
    rewrite (add_if_matches_match _ _ _ Hcall).
    by destruct (updated _ _ _).
  - rewrite (add_if_matches_no_match _ _ Hcall). simpl.
    destruct (first_match (tag <$> cols) file) as [[j key]|]; simpl.
    + destruct IH as (c' & Hj & Hc' & ->). exists c'. split_and!; [done..|].
      by destruct (updated _ _ _).
    + by rewrite IH.
Qed.

Lemma routed_snoc tags j key fs f :
  routed tags j key (fs ++ [f])
  = routed tags j key fs
    ++ (if decide (first_match tags f = Some (j, key)) then [f] else []).
Proof.
  unfold routed. rewrite filter_app, filter_cons, filter_nil.
  by destruct (decide _).
Qed.

Lemma routing_init tags : routing tags [] (new_collection <$> tags).
Proof.
  split.
  - rewrite <-list_fmap_compose. by rewrite <-(list_fmap_id tags) at 2.
  - intros c [t [-> _]]%list_elem_of_fmap. apply wf_nil.
  - intros j c key [t [-> _]]%list_lookup_fmap_Some. done.
  - intros j c key _ _. simpl. lia.
Qed.

Lemma route_step tags fs cols file :
  routing tags fs cols →
  match route file cols with
  | Ok cols' => routing tags (fs ++ [file]) cols'
  | Raise e =>
      e = ValueError file ∧
      ∃ j key t, tags !! j = Some t ∧ allow_multiple t = false ∧
                 first_match tags file = Some (j, key) ∧
                 routed tags j key fs ≠ []
  end.
Proof.
  intros [Htags Hwf Hfiles Hsingle].
  pose proof (route_spec file cols) as Hr. rewrite Htags in Hr.
  destruct (first_match tags file) as [[j key]|] eqn:Hfirst.
  - destruct Hr as (c & Hj & Hcall & ->).
    rewrite (Hfiles j c key Hj).
    assert (Hstep : ∀ v,
      stored (allow_multiple (tag c)) (routed tags j key (fs ++ [file])) = Some v →
      (allow_multiple (tag c) = false →
       length (routed tags j key (fs ++ [file])) ≤ 1) →
      routing tags (fs ++ [file])
        (<[j := with_files c (Dict.set key v (files c))]> cols)).
    { intros v Hv Hlen. split.
      - rewrite list_fmap_insert. simpl. rewrite <-Htags.
        apply list_insert_id. by rewrite list_lookup_fmap, Hj.
      - intros c' Hc'. apply list_elem_of_lookup in Hc' as [j' Hj'].
        destruct (decide (j = j')) as [<-|Hne].
        + rewrite list_lookup_insert_eq in Hj' by by eapply lookup_lt_Some.
          injection Hj' as <-. simpl. apply wf_set, Hwf.
          by eapply list_elem_of_lookup_2.
        + rewrite list_lookup_insert_ne in Hj' by done.
          apply Hwf. by eapply list_elem_of_lookup_2.
      - intros j' c' key' Hj'. destruct (decide (j = j')) as [<-|Hne].
        + rewrite list_lookup_insert_eq in Hj' by by eapply lookup_lt_Some.
          injection Hj' as <-. simpl. rewrite get_set.
          destruct (decide (key = key')) as [<-|Hk]; [done|].
          rewrite routed_snoc, decide_False, app_nil_r by congruence.
          by apply Hfiles.
        + rewrite list_lookup_insert_ne in Hj' by done.
          rewrite routed_snoc, decide_False, app_nil_r by congruence.
          by apply Hfiles.
      - intros j' c' key' Hj' Hm. destruct (decide (j = j')) as [<-|Hne].
        + rewrite list_lookup_insert_eq in Hj' by by eapply lookup_lt_Some.
          injection Hj' as <-. simpl in Hm.
          destruct (decide (key = key')) as [<-|Hk]; [by apply Hlen|].
          rewrite routed_snoc, decide_False, app_nil_r by congruence.
          by eapply Hsingle.
        + rewrite list_lookup_insert_ne in Hj' by done.
          rewrite routed_snoc, decide_False, app_nil_r by congruence.
          by eapply Hsingle. }
    pose proof (routed_snoc tags j key fs file) as Hsn.
    rewrite decide_True in Hsn by done.
    destruct (allow_multiple (tag c)) eqn:Hm; simpl.
    + destruct (routed tags j key fs) as [|p l] eqn:Hrt; simpl;
        (apply Hstep; [by rewrite Hsn | done]).
    + destruct (routed tags j key fs) as [|p l] eqn:Hrt; simpl.
      * apply Hstep; rewrite Hsn; [done | simpl; lia].
      * split; [done|]. exists j, key, (tag c). split_and!; try done.
        -- by rewrite <-Htags, list_lookup_fmap, Hj.
        -- by rewrite Hrt.
  - rewrite Hr. split; [done..| |].
    + intros j c key Hj.
      rewrite routed_snoc, decide_False, app_nil_r by congruence. by apply Hfiles.
    + intros j c key Hj Hm.
      rewrite routed_snoc, decide_False, app_nil_r by congruence. by eapply Hsingle.
Qed.

(** What [find_by_tag] does on every input: it returns the routed
    collections, or raises at the first file that falls on an occupied key of
    a single-path tag. *)
Lemma find_by_tag_spec fs tags :
  match find_by_tag fs tags with
  | Ok cols => routing tags fs cols
  | Raise e =>
      ∃ fs1 file fs2 j key t,
        fs = fs1 ++ file :: fs2 ∧ e = ValueError file ∧
        tags !! j = Some t ∧ allow_multiple t = false ∧
        first_match tags file = Some (j, key) ∧ routed tags j key fs1 ≠ []
  end.
Proof.
  unfold find_by_tag. induction fs as [|file fs IH] using rev_ind.
  - apply routing_init.
  - rewrite foldM_app. destruct (foldM _ _ fs) as [cols|e]; simpl.
    + pose proof (route_step tags fs cols file IH) as Hstep.
      destruct (route file cols) as [cols'|e]; [done|].
      destruct Hstep as (-> & j & key & t & ?). exists fs, file, [], j, key, t. done.
    + destruct IH as (fs1 & f & fs2 & j & key & t & -> & ?).
      exists fs1, f, (fs2 ++ [file]), j, key, t. by rewrite <-app_assoc.
Qed.

(** A file that no tag matches is dropped: the answer is the one the other
    files give. *)
Lemma find_by_tag_drops_unmatched tags file fs1 fs2 :
  (∀ t, t ∈ tags → call (parser t) file = None) →
  find_by_tag (fs1 ++ file :: fs2) tags = find_by_tag (fs1 ++ fs2) tags.
Proof.
  intros Hnone. pose proof (find_by_tag_spec fs1 tags) as Hspec.
  unfold find_by_tag in *. rewrite !foldM_app.
  destruct (foldM _ _ fs1) as [cols|e]; [|done]. simpl.
  pose proof (route_spec file cols) as Hr.
  rewrite (routing_tags _ _ _ Hspec) in Hr.
  apply first_match_None in Hnone. rewrite Hnone in Hr. by rewrite Hr.
Qed.

(** A collection holds exactly the files routed to its tag. *)
Lemma routing_holds tags fs cols j c file :
  routing tags fs cols → cols !! j = Some c →
  holds c file ↔ ∃ key, file ∈ routed tags j key fs.
Proof.
  intros [Htags Hwf Hfiles Hsingle] Hj. unfold holds. split.
  - intros (key & ps & Hget & Hin). exists key.
    rewrite (Hfiles j c key Hj) in Hget.
    pose proof (Hsingle j c key Hj) as Hlen.
    destruct (routed tags j key fs) as [|p l]; [done|]. simpl in Hget.
    destruct (allow_multiple (tag c)); injection Hget as <-; [done|].
    simpl in Hin. apply list_elem_of_singleton in Hin as ->. apply list_elem_of_here.
  - intros (key & Hin). exists key.
    rewrite (Hfiles j c key Hj).
    pose proof (Hsingle j c key Hj) as Hlen.
    destruct (routed tags j key fs) as [|p l]; [by apply elem_of_nil in Hin|].
    simpl. destruct (allow_multiple (tag c)); eexists; (split; [done|]); [done|].
    simpl. destruct l; [done|]. simpl in Hlen. specialize (Hlen eq_refl). lia.
Qed.

Lemma find_by_tag_snoc fs f tags :
  find_by_tag (fs ++ [f]) tags = (cols ← find_by_tag fs tags; route f cols).
Proof.
  unfold find_by_tag. rewrite foldM_app.
  destruct (foldM _ _ fs) as [cols|e]; simpl; [|done].
  by destruct (route f cols).
Qed.

Lemma routed_app tags j key fs1 fs2 :
  routed tags j key (fs1 ++ fs2) = routed tags j key fs1 ++ routed tags j key fs2.
Proof. apply filter_app. Qed.

(** A run of [find_by_tag] that raises went well up to some file, and
    raised when that file was routed. *)
Lemma find_by_tag_raise fs tags e :
  find_by_tag fs tags = Raise e →
  ∃ fs1 file fs2 cols1,
    fs = fs1 ++ file :: fs2 ∧ find_by_tag fs1 tags = Ok cols1
    ∧ route file cols1 = Raise e.
Proof.
  induction fs as [|f fs IH] using rev_ind; [done|].
  rewrite find_by_tag_snoc.
  destruct (find_by_tag fs tags) as [cols|e'] eqn:Hfs; simpl.
  - intros Hroute. exists fs, f, [], cols. done.
  - intros [= ->]. destruct (IH eq_refl) as (fs1 & file & fs2 & cols1 & -> & H1 & H2).
    exists fs1, file, (fs2 ++ [f]), cols1. by rewrite <-app_assoc.
Qed.

(** After a run that returns, no file fell on a key that an earlier file had
    taken under a single-path tag. *)
Lemma routing_no_collision tags fs cols fs1 file fs2 :
  routing tags fs cols → fs = fs1 ++ file :: fs2 →
  ¬ Grouping.collision tags fs1 file.
Proof.
  intros Hspec -> (j & t & key & earlier & Ht & Hsingle & Hfirst & Hin & Hearlier).
  assert (∃ c, cols !! j = Some c ∧ tag c = t) as (c & Hc & <-).
  { rewrite <-(routing_tags _ _ _ Hspec), list_lookup_fmap in Ht.
    destruct (cols !! j) as [c|]; [|done]. exists c. by simplify_eq/=. }
  pose proof (routing_single _ _ _ Hspec j c key Hc Hsingle) as Hlen.
  rewrite routed_app, length_app in Hlen.
  unfold routed at 2 in Hlen. rewrite filter_cons_True in Hlen by done.
  assert (earlier ∈ routed tags j key fs1) as Hrouted.
  { unfold routed. by apply list_elem_of_filter. }
  destruct (routed tags j key fs1); [by apply elem_of_nil in Hrouted|].
  simpl in Hlen. lia.
Qed.

End files_facts.

(** ** Routing: the claims about [add_if_matches] and [find_by_tag] *)

Section routing_claims.
Import Files Routing Scenario.

(** C1 (a defect of the code): on a tag with [allow_multiple = false], a file
    whose key is already occupied makes [add_if_matches] raise, but the
    exception is [ValueError(file)]: it carries the new path only.  Two
    different tags holding two different stored paths raise the very same
    exception for the same new file, so the exception identifies neither the
    tag, nor the key, nor the stored path. *)
Theorem duplicate_key_error_carries_only_the_new_path :
  add_all (new_collection photo) ["a/1.jpg"; "b/1.jpg"]
  = Raise (ValueError "b/1.jpg")
  ∧ add_all (new_collection thumb) ["c/1.jpg"; "b/1.jpg"]
    = Raise (ValueError "b/1.jpg").
Proof. split; vm_compute; reflexivity. Qed.

(** C9: on a tag with [allow_multiple = true], a sequence of calls of
    [add_if_matches] starting from a fresh collection never raises; afterwards
    each key holds the list of the files that matched it, in the order of the
    calls, and a key no file matched is absent. *)
Theorem add_if_matches_allow_multiple (t : Tag) (fs : list Path) :
  allow_multiple t = true →
  ∃ c, add_all (new_collection t) fs = Ok c ∧ tag c = t ∧
       ∀ key, Dict.get key (files c)
              = match filter (λ f, call (parser t) f = Some key) fs with
                | [] => None
                | matching => Some (Many matching)
                end.
Proof.
  intros Hm. induction fs as [|f fs IH] using rev_ind.
  - exists (new_collection t). done.
  - destruct IH as (c & Hc & Ht & Hget). unfold add_all in *.
    rewrite foldM_app, Hc. simpl.
    destruct (call (parser t) f) as [key|] eqn:Hcall.
    + rewrite (add_if_matches_match c f key) by by rewrite Ht.
      rewrite Ht, Hm.
      assert (∃ v, updated true f (Dict.get key (files c)) = Ok v ∧
                   v = Many (filter (λ f0, call (parser t) f0 = Some key) fs ++ [f]))
        as (v & -> & Hv).
      { rewrite Hget. destruct (filter _ fs); simpl; eauto. }
      simpl. eexists; split_and!; [done..|]. intros key'. simpl.
      rewrite get_set, filter_app, filter_cons, filter_nil.
      destruct (decide (key = key')) as [<-|Hne].
      * rewrite decide_True by done. rewrite Hv.
        by destruct (filter _ fs).
      * rewrite decide_False by congruence. rewrite app_nil_r. apply Hget.
    + rewrite add_if_matches_no_match by by rewrite Ht. simpl.
      exists c. split_and!; [done..|]. intros key.
      rewrite filter_app, filter_cons, filter_nil, decide_False by congruence.
      rewrite app_nil_r. apply Hget.
Qed.

Lemma add_if_matches_allow_multiple_witness :
  ∃ c, add_all (new_collection pages) ["d/1.png"; "e/1.png"; "d/2.png"] = Ok c
       ∧ tag c = pages.
Proof.
  destruct (add_if_matches_allow_multiple pages
              ["d/1.png"; "e/1.png"; "d/2.png"] eq_refl) as (c & Hc & Ht & _).
  exists c. split; assumption.
Defined.

(** C2: when [find_by_tag] returns, the collection of index [j] holds a file
    exactly when the file is one of the inputs, the tag of index [j] matches
    it and no earlier tag does; so a file is in at most one collection, the
    one of the first tag that matches it, and in none when no tag matches.
    A file that no tag matches raises no error and is dropped: with or
    without it, [find_by_tag] gives the same answer. *)
Theorem find_by_tag_first_match_wins
    (fs : list Path) (tags : list Tag) (cols : list FileCollection) :
  find_by_tag fs tags = Ok cols →
  (∀ j c file, cols !! j = Some c →
     holds c file ↔
     file ∈ fs ∧ is_Some (call (parser (tag c)) file) ∧
     ∀ i t, i < j → tags !! i = Some t → call (parser t) file = None)
  ∧ (∀ j j' c c' file, cols !! j = Some c → cols !! j' = Some c' →
       holds c file → holds c' file → j = j')
  ∧ (∀ file, (∀ t, t ∈ tags → call (parser t) file = None) →
       ∀ fs1 fs2, find_by_tag (fs1 ++ file :: fs2) tags
                  = find_by_tag (fs1 ++ fs2) tags).
Proof.
  intros Hfind. pose proof (find_by_tag_spec fs tags) as Hspec.
  rewrite Hfind in Hspec.
  assert (Hholds : ∀ j c file, cols !! j = Some c →
            holds c file ↔ file ∈ fs ∧ ∃ key, first_match tags file = Some (j, key)).
  { intros j c file Hj. rewrite (routing_holds tags fs cols j c file Hspec Hj).
    unfold routed. setoid_rewrite list_elem_of_filter. split.
    - intros (key & Hk & Hin). eauto.
    - intros (Hin & key & Hk). eauto. }
  split_and!.
  - intros j c file Hj. rewrite (Hholds j c file Hj).
    assert (tags !! j = Some (tag c)) as Htag.
    { by rewrite <-(routing_tags _ _ _ Hspec), list_lookup_fmap, Hj. }
    setoid_rewrite first_match_Some. split.
    + intros (Hin & key & t & Ht & Hcall & Hbefore).
      assert (t = tag c) as -> by congruence. eauto.
    + intros (Hin & [key Hcall] & Hbefore). eauto 10.
  - intros j j' c c' file Hj Hj' Hc Hc'.
    apply (Hholds j c file Hj) in Hc as (_ & key & Hk).
    apply (Hholds j' c' file Hj') in Hc' as (_ & key' & Hk').
    congruence.
  - intros file Hnone fs1 fs2. by apply find_by_tag_drops_unmatched.
Qed.

Lemma find_by_tag_first_match_wins_witness :
  find_by_tag ["1.jpg"; "1.txt"; "notes.md"; "2.jpg"] [image; caption]
  = Ok routed_collections
  ∧ ∀ j j' c c' file,
      routed_collections !! j = Some c → routed_collections !! j' = Some c' →
      holds c file → holds c' file → j = j'.
Proof.
  split; [reflexivity|].
  apply (find_by_tag_first_match_wins
           ["1.jpg"; "1.txt"; "notes.md"; "2.jpg"] [image; caption]
           routed_collections eq_refl).
Defined.

(** C10, the claim as stated fails: two files that fall on the same key of a
    tag with [allow_multiple = false] make [find_by_tag] raise, and no list
    is returned. *)
Lemma find_by_tag_raises_on_duplicate_key :
  find_by_tag ["a/1.jpg"; "b/1.jpg"] [photo] = Raise (ValueError "b/1.jpg")
  ∧ ¬ ∃ cols, find_by_tag ["a/1.jpg"; "b/1.jpg"] [photo] = Ok cols.
Proof.
  assert (find_by_tag ["a/1.jpg"; "b/1.jpg"] [photo]
          = Raise (ValueError "b/1.jpg")) as Heq by (vm_compute; reflexivity).
  split; [exact Heq|]. intros [cols Hcols]. congruence.
Qed.

(** C10 as amended: on every input [find_by_tag] either returns one
    collection per tag, in the order of the tags, the collection of a tag
    that matches no file being empty, and then no file of the input went, by
    first match, to a key of a tag with [allow_multiple = false] where an
    earlier file had gone; or it raises [ValueError] for the first file of
    the input that does.  The two cases exclude each other, so
    [find_by_tag] raises exactly when there is such a file. *)
Theorem find_by_tag_one_collection_per_tag (fs : list Path) (tags : list Tag) :
  match find_by_tag fs tags with
  | Ok cols =>
      tag <$> cols = tags
      ∧ (∀ c, c ∈ cols →
              (∀ file, file ∈ fs → call (parser (tag c)) file = None) →
              files c = [])
      ∧ (∀ fs1 file fs2, fs = fs1 ++ file :: fs2 →
                         ¬ Grouping.collision tags fs1 file)
  | Raise e =>
      ∃ fs1 file fs2,
        fs = fs1 ++ file :: fs2 ∧ e = ValueError file
        ∧ Grouping.collision tags fs1 file
        ∧ (∀ fs0 file0 rest, fs1 = fs0 ++ file0 :: rest →
                             ¬ Grouping.collision tags fs0 file0)
  end.
Proof.
  pose proof (find_by_tag_spec fs tags) as Hspec.
  destruct (find_by_tag fs tags) as [cols|e] eqn:Hrun.
  - split_and!; [apply (routing_tags _ _ _ Hspec)| |].
    + intros c Hc Hnone. apply get_nil_all. intros key.
      apply list_elem_of_lookup in Hc as [j Hj].
      rewrite (routing_files _ _ _ Hspec j c key Hj).
      destruct (routed tags j key fs) as [|file l] eqn:Hrt; [done|]. exfalso.
      assert (file ∈ routed tags j key fs) as Hin.
      { rewrite Hrt. apply list_elem_of_here. }
      apply list_elem_of_filter in Hin as [Hfirst Hin].
      apply first_match_Some in Hfirst as (t & Ht & Hcall & _).
      assert (t = tag c) as ->.
      { rewrite <-(routing_tags _ _ _ Hspec), list_lookup_fmap, Hj in Ht.
        by injection Ht. }
      rewrite (Hnone file Hin) in Hcall. done.
    + intros fs1 file fs2 Hfs. by eapply routing_no_collision.
  - clear Hspec.
    apply find_by_tag_raise in Hrun as (fs1 & file & fs2 & cols1 & -> & Hfs1 & Hroute).
    pose proof (find_by_tag_spec fs1 tags) as Hspec. rewrite Hfs1 in Hspec.
    pose proof (route_step tags fs1 cols1 file Hspec) as Hstep.
    rewrite Hroute in Hstep.
    destruct Hstep as (-> & j & key & t & Ht & Hsingle & Hfirst & Hne).
    exists fs1, file, fs2. split_and!; [done|done| |].
    + destruct (routed tags j key fs1) as [|earlier l] eqn:Hrt; [done|].
      assert (earlier ∈ routed tags j key fs1) as Hin.
      { rewrite Hrt. apply list_elem_of_here. }
      apply list_elem_of_filter in Hin as [Hearlier Hin].
      by exists j, t, key, earlier.
    + intros fs0 file0 rest Hfs0. by eapply routing_no_collision.
Qed.

End routing_claims.

(** ** Grouping: the claims about [group_by_key] *)

Section grouping_claims.
Import Files Routing Scenario.

Lemma split_by_type_distributable cs :
  (split_by_type cs).1.2 = filter (λ c, is_distributable c) cs.
Proof.
  induction cs as [|c cs IH]; [done|]. simpl.
  destruct (split_by_type cs) as [[multi dist] single]. simpl in IH.
  rewrite filter_cons.
  destruct (decide (is_distributable c)) as [Hd|Hd];
    unfold is_distributable in Hd; destruct (kind (tag c)); simpl in *;
    try done; by rewrite IH.
Qed.

Lemma distributable_collections_sorted cs :
  distributable_collections cs
  = sorted nb_key_parts (filter (λ c, is_distributable c) cs).
Proof.
  unfold distributable_collections, _sort_collections_by_type.
  rewrite <-split_by_type_distributable.
  by destruct (split_by_type cs) as [[multi dist] single].
Qed.

(** The phases of [group_by_key], in the order the code runs them. *)
Lemma group_by_key_phases cs key_formatter :
  group_by_key cs key_formatter
  = (groups ← foldM distribute
                (foldl collect [] (multi_part_collections cs))
                (distributable_collections cs);
     Ok (foldl collect (format_groups key_formatter groups)
           (single_part_collections cs))).
Proof.
  unfold group_by_key, multi_part_collections, distributable_collections,
    single_part_collections.
  by destruct (_sort_collections_by_type cs) as [[multi dist] single].
Qed.

(** C4: the distributable collections are joined in ascending order of the
    number of key parts of their parser: the list the second loop of
    [group_by_key] goes through is sorted by that number, holds exactly the
    distributable collections of the input, keeps the input order among
    collections with the same number of parts, and shows the same sequence
    of numbers whatever the order of the input was. *)
Theorem distributable_collections_by_ascending_key_parts
    (cs : list FileCollection) (key_formatter : Key → GroupKey) :
  StronglySorted (λ a b, nb_key_parts a ≤ nb_key_parts b)
                 (distributable_collections cs)
  ∧ distributable_collections cs ≡ₚ filter (λ c, is_distributable c) cs
  ∧ (∀ n, filter (λ c, nb_key_parts c = n) (distributable_collections cs)
          = filter (λ c, nb_key_parts c = n)
                   (filter (λ c, is_distributable c) cs))
  ∧ (∀ cs', cs' ≡ₚ cs →
        nb_key_parts <$> distributable_collections cs'
        = nb_key_parts <$> distributable_collections cs)
  ∧ group_by_key cs key_formatter
    = (groups ← foldM distribute
                  (foldl collect [] (multi_part_collections cs))
                  (distributable_collections cs);
       Ok (foldl collect (format_groups key_formatter groups)
             (single_part_collections cs))).
Proof.
  rewrite distributable_collections_sorted. split_and!.
  - apply sorted_sorted.
  - apply sorted_perm.
  - intros n. apply sorted_stable.
  - intros cs' Hperm. rewrite distributable_collections_sorted.
    apply sorted_keys_perm. by rewrite Hperm.
  - rewrite <-distributable_collections_sorted. apply group_by_key_phases.
Qed.

Lemma distribute_joined c groups :
  (∀ key, key ∈ Dict.keys groups → ∃ parts, key = MultiPart parts) →
  distribute groups c
  = Ok ((λ item, (item.1, joined c item.1 item.2)) <$> groups).
Proof.
  intros Hkeys. apply forM_pure. intros [key group] Hin.
  destruct (Hkeys key) as [parts ->].
  { apply list_elem_of_fmap. by exists (key, group). }
  unfold distribute_to, joined, reduced. simpl.
  by destruct (Dict.get _ (files c)).
Qed.

Lemma elem_of_keys_set {K V} `{EqDecision K} (x k : K) (v : V) (d : dict K V) :
  x ∈ Dict.keys (Dict.set k v d) ↔ x = k ∨ x ∈ Dict.keys d.
Proof.
  rewrite keys_set. destruct (decide (k ∈ Dict.keys d)) as [Hin|Hnin].
  - split; [by right|]. by intros [->|?].
  - rewrite elem_of_app, list_elem_of_singleton. tauto.
Qed.

Lemma format_groups_snoc key_formatter groups item :
  format_groups key_formatter (groups ++ [item])
  = Dict.set (Formatted (key_formatter item.1)) item.2
      (format_groups key_formatter groups).
Proof. unfold format_groups. by rewrite foldl_app. Qed.

Lemma format_groups_keys key_formatter groups key :
  key ∈ Dict.keys (format_groups key_formatter groups) ↔
  ∃ k, k ∈ Dict.keys groups ∧ key = Formatted (key_formatter k).
Proof.
  induction groups as [|[k g] groups IH] using rev_ind.
  - split; [by intros ?%elem_of_nil | by intros (? & ?%elem_of_nil & _)].
  - rewrite format_groups_snoc, elem_of_keys_set, IH. unfold Dict.keys.
    rewrite fmap_app. simpl. setoid_rewrite elem_of_app.
    setoid_rewrite list_elem_of_singleton. split.
    + intros [->|(k' & Hk' & ->)]; eauto.
    + intros (k' & [Hk'| ->] & ->); eauto.
Qed.

(** When the formatter tells the keys apart, each group is found again under
    its formatted key. *)
Lemma format_groups_get key_formatter groups k :
  Dict.wf groups →
  (∀ k', k' ∈ Dict.keys groups → key_formatter k' = key_formatter k → k' = k) →
  Dict.get (Formatted (key_formatter k)) (format_groups key_formatter groups)
  = Dict.get k groups.
Proof.
  induction groups as [|[k' g'] groups IH] using rev_ind; [done|].
  unfold Dict.wf, Dict.keys. rewrite fmap_app. simpl.
  intros [Hwf [Hfresh _]]%NoDup_app Hinj.
  rewrite format_groups_snoc, get_set, get_app. simpl.
  destruct (decide (Formatted (key_formatter k') = Formatted (key_formatter k)))
    as [[= Heq]|Hne].
  - assert (k' = k) as ->.
    { apply Hinj; [|done]. apply elem_of_app. right. apply list_elem_of_here. }
    assert (Dict.get k groups = None) as ->.
    { apply get_None. intros Hin. apply (Hfresh k Hin), list_elem_of_here. }
    by rewrite decide_True.
  - rewrite IH; [|done|].
    + destruct (Dict.get k groups); [done|].
      destruct (decide (k = k')) as [->|]; [done|done].
    + intros k0 Hk0. apply Hinj. apply elem_of_app. by left.
Qed.

Lemma collect_get formatted c key :
  Dict.wf (files c) →
  Dict.get key (collect formatted c)
  = match Dict.get key (files c), Dict.get key formatted with
    | Some path, Some group => Some (Dict.set (name (tag c)) path group)
    | Some path, None => Some [(name (tag c), path)]
    | None, existing => existing
    end.
Proof.
  unfold collect, Dict.wf, Dict.keys. generalize (name (tag c)) as n.
  generalize (files c) as items. clear c. intros items n. revert formatted.
  induction items as [|[k p] items IH]; intros formatted Hwf.
  - simpl. by destruct (Dict.get key formatted).
  - rewrite fmap_cons in Hwf. apply NoDup_cons in Hwf as [Hk Hwf].
    simpl. rewrite IH by done. unfold attach. simpl.
    destruct (decide (key = k)) as [->|Hne].
    + assert (Dict.get k items = None) as -> by by apply get_None.
      rewrite get_set_eq. by destruct (Dict.get k formatted).
    + by rewrite get_set_ne.
Qed.

(** The scenarios of section 8 of the specification, from the files to the
    groups. *)
Example scenario_image_caption :
  (cols ← find_by_tag ["1.jpg"; "1.txt"; "2.jpg"] [image; caption];
   group_by_key cols (format_parts ["id"]))
  = Ok [(Formatted "1", [("image", One "1.jpg"); ("caption", One "1.txt")]);
        (Formatted "2", [("image", One "2.jpg")])].
Proof. vm_compute. reflexivity. Qed.

Example scenario_distributable_join :
  (cols ← find_by_tag ["1_0.jpg"; "1_1.jpg"; "1.txt"; "README.md"]
            [crop; shared_caption; readme];
   group_by_key cols (format_parts ["id"; "crop_index"]))
  = Ok [(Formatted "1_0", [("crop", One "1_0.jpg"); ("caption", One "1.txt");
                           ("readme", One "README.md")]);
        (Formatted "1_1", [("crop", One "1_1.jpg"); ("caption", One "1.txt")])].
Proof. vm_compute. reflexivity. Qed.

End grouping_claims.

(** ** Patterns: the key parts *)

Section key_parts_facts.
Import PathParser Pattern.












(** The cases of [test_path_parser_key_parts]. *)
Example key_parts_tests :
  key_parts ".*" = Some []
  ∧ key_parts "{z}_{a}" = Some ["z"; "a"]
  ∧ key_parts "foo/bar_{index}.txt" = Some ["index"]
  ∧ key_parts "foo/*/bar_{index}.txt" = Some ["index"]
  ∧ key_parts "foo/bar_{index}.(mp3|aac|wav)" = Some ["index"]
  ∧ key_parts "foo/{subset}/{name}.txt" = Some ["subset"; "name"]
  ∧ key_parts "foo/(a|b)/file_{index}.txt" = Some ["index"]
  ∧ key_parts "foo/{artist!g}-{album}/tracks.json" = Some ["artist"; "album"]
  ∧ key_parts "(?P<this should be escaped>\d){foo}" = Some ["foo"]
  ∧ key_parts "\{this should be escaped\}{foo}" = Some ["foo"].
Proof. repeat split; vm_compute; reflexivity. Qed.

End key_parts_facts.


(** ** Patterns: lazy and greedy placeholders *)

Section greediness_facts.
Import PathParser Pattern.
Context {A : Type}.
Implicit Types (s : list ascii) (k : list ascii → option A).

(** A lazy repetition of any character stops at the first point the rest of
    the pattern accepts. *)
Lemma star_any_lazy s k :
  match star Any false s k with
  | Some v => ∃ i, i ≤ length s ∧ k (drop i s) = Some v
                   ∧ ∀ j, j < i → k (drop j s) = None
  | None => ∀ i, i ≤ length s → k (drop i s) = None
  end.
Proof.
  induction s as [|c s IH]; simpl.
  - destruct (k []) as [v|] eqn:Hk.
    + exists 0. split_and!; [done..|]. intros j Hj. lia.
    + intros i Hi. by rewrite drop_nil.
  - destruct (k (c :: s)) as [v|] eqn:Hk; simpl.
    + exists 0. split_and!; [lia | done |]. intros j Hj. lia.
    + destruct (star Any false s k) as [v|].
      * destruct IH as (i & Hi & Hv & Hmin). exists (S i).
        split_and!; [lia | done |]. intros [|j] Hj; [done|]. apply Hmin. lia.
      * intros [|i] Hi; [done|]. apply IH. lia.
Qed.

(** A greedy repetition of any character stops at the last point the rest of
    the pattern accepts. *)
Lemma star_any_greedy s k :
  match star Any true s k with
  | Some v => ∃ i, i ≤ length s ∧ k (drop i s) = Some v
                   ∧ ∀ j, i < j → j ≤ length s → k (drop j s) = None
  | None => ∀ i, i ≤ length s → k (drop i s) = None
  end.
Proof.
  induction s as [|c s IH]; simpl.
  - destruct (k []) as [v|] eqn:Hk.
    + exists 0. split_and!; [done..|]. intros j Hj Hj'. lia.
    + intros i Hi. by rewrite drop_nil.
  - destruct (star Any true s k) as [v|]; simpl.
    + destruct IH as (i & Hi & Hv & Hmax). exists (S i).
      split_and!; [lia | done |]. intros [|j] Hj Hj'; [lia|]. apply Hmax; lia.
    + destruct (k (c :: s)) as [v|] eqn:Hk.
      * exists 0. split_and!; [lia | done |].
        intros [|j] Hj Hj'; [lia|]. apply IH. lia.
      * intros [|i] Hi; [done|]. apply IH. lia.
Qed.

(** Before the end of the text a repetition of any character takes it all. *)
Lemma star_any_at_end greedy s (f : list ascii → A) :
  star Any greedy s (λ s', match s' with [] => Some (f s') | _ => None end)
  = Some (f []).
Proof.
  induction s as [|c s IH]; simpl; [done|].
  rewrite IH. by destruct greedy.
Qed.
End greediness_facts.

Section greediness_law.
Import PathParser Pattern.

Lemma list_of_append x y :
  String.list_ascii_of_string (x +:+ y)
  = String.list_ascii_of_string x ++ String.list_ascii_of_string y.
Proof. induction x as [|c x IH]; simpl; [done | by rewrite IH]. Qed.

Lemma string_of_app l1 l2 :
  String.string_of_list_ascii (l1 ++ l2)
  = String.string_of_list_ascii l1 +:+ String.string_of_list_ascii l2.
Proof. induction l1 as [|c l1 IH]; simpl; [done | by rewrite IH]. Qed.

Lemma length_list_of x :
  length (String.list_ascii_of_string x) = String.length x.
Proof. induction x as [|c x IH]; simpl; [done | by rewrite IH]. Qed.

Lemma list_of_nonempty x : x ≠ "" → String.list_ascii_of_string x ≠ [].
Proof. by destruct x. Qed.

Lemma string_of_list_nonempty l : l ≠ [] → String.string_of_list_ascii l ≠ "".
Proof. by destruct l. Qed.

Lemma consumed_all s : consumed s [] = String.string_of_list_ascii s.
Proof. unfold consumed. simpl. by rewrite Nat.sub_0_r, firstn_all. Qed.

Lemma run_dash s e :
  run (Seq (Chr (Only "-")) (Seq (Capture "b" (Rep Any OneOrMore false)) Eps))
      s e at_end
  = dash e s.
Proof.
  destruct s as [|c [|c' s']]; cbn [run repeat one mem dash]; [done| |].
  - by destruct (Ascii.eqb c "-").
  - destruct (Ascii.eqb c "-"); [|done]. unfold at_end.
    rewrite (star_any_at_end false s'
               (λ s4, <["b" := consumed (c' :: s') s4]> e)).
    by rewrite consumed_all.
Qed.

(** The split the two placeholders make of a text that has one. *)
Lemma two_parts_split greedy lx ly s :
  s = lx ++ "-"%char :: ly → lx ≠ [] → ly ≠ [] →
  ∃ la lb,
    run (two_parts greedy) s ∅ at_end
    = Some (<["b" := String.string_of_list_ascii lb]>
              {["a" := String.string_of_list_ascii la]})
    ∧ s = la ++ "-"%char :: lb ∧ la ≠ [] ∧ lb ≠ []
    ∧ if greedy then length lx ≤ length la else length la ≤ length lx.
Proof.
  intros -> Hx Hy. destruct lx as [|c lx]; [done|]. clear Hx.
  destruct ly as [|d ly]; [done|]. clear Hy.
  rewrite <-app_comm_cons.
  set (s := lx ++ "-"%char :: d :: ly).
  set (k := λ s', run (Seq (Chr (Only "-"))
                         (Seq (Capture "b" (Rep Any OneOrMore false)) Eps))
                      s' {["a" := consumed (c :: s) s']} at_end).
  assert (run (two_parts greedy) (c :: s) ∅ at_end = star Any greedy s k) as ->.
  { done. }
  assert (Hk : ∀ i v, i ≤ length s → k (drop i s) = Some v →
            ∃ lb, drop i s = "-"%char :: lb ∧ lb ≠ [] ∧
                  v = <["b" := String.string_of_list_ascii lb]>
                        {["a" := String.string_of_list_ascii (take (S i) (c :: s))]}).
  { intros i v Hi. unfold k. rewrite run_dash. unfold dash, consumed.
    destruct (drop i s) as [|c1 [|c2 s2]] eqn:Hdrop; [done..|].
    destruct (Ascii.eqb c1 "-") eqn:Hc1; [|done].
    apply Ascii.eqb_eq in Hc1 as ->. intros [= <-].
    exists (c2 :: s2). split_and!; [done..|].
    assert (length s - S (length s2) = S i) as ->; [|done].
    apply (f_equal length) in Hdrop. rewrite length_drop in Hdrop.
    simpl in Hdrop. lia. }
  assert (Hcand : is_Some (k (drop (length lx) s))).
  { unfold k. rewrite run_dash. unfold s. rewrite drop_app_length. simpl. eauto. }
  assert (Hlen : length lx ≤ length s).
  { unfold s. rewrite length_app. lia. }
  assert (Hsplit : ∀ i lb, i ≤ length s → drop i s = "-"%char :: lb →
            c :: s = take (S i) (c :: s) ++ "-"%char :: lb).
  { intros i lb Hi Hdrop. rewrite <-Hdrop. simpl. by rewrite take_drop. }
  destruct greedy.
  - pose proof (star_any_greedy s k) as Hstar.
    destruct (star Any true s k) as [v|].
    + destruct Hstar as (i & Hi & Hv & Hmax).
      destruct (Hk i v Hi Hv) as (lb & Hdrop & Hlb & ->).
      eexists _, lb. split_and!; [done | by apply Hsplit | done | done |].
      rewrite length_take. simpl.
      destruct (decide (length lx ≤ i)) as [|Hlt]; [lia|].
      rewrite Hmax in Hcand by lia. by destruct Hcand.
    + rewrite Hstar in Hcand by done. by destruct Hcand.
  - pose proof (star_any_lazy s k) as Hstar.
    destruct (star Any false s k) as [v|].
    + destruct Hstar as (i & Hi & Hv & Hmin).
      destruct (Hk i v Hi Hv) as (lb & Hdrop & Hlb & ->).
      eexists _, lb. split_and!; [done | by apply Hsplit | done | done |].
      rewrite length_take. simpl.
      destruct (decide (i ≤ length lx)) as [|Hlt]; [lia|].
      rewrite Hmin in Hcand by lia. by destruct Hcand.
    + rewrite Hstar in Hcand by done. by destruct Hcand.
Qed.

Lemma matches_two_parts greedy pattern path :
  compile pattern = Some {| regex := two_parts greedy; parts := ["a"; "b"] |} →
  ∀ x y, path = x +:+ "-" +:+ y → x ≠ "" → y ≠ "" →
  ∃ a b, matches pattern path = Some (Some {["a" := a; "b" := b]})
         ∧ path = a +:+ "-" +:+ b ∧ a ≠ "" ∧ b ≠ ""
         ∧ if greedy then String.length x ≤ String.length a
           else String.length a ≤ String.length x.
Proof.
  intros Hcompile x y -> Hx Hy. unfold matches. rewrite Hcompile.
  cbn [mbind option_bind]. unfold call, fullmatch. cbn [regex].
  destruct (two_parts_split greedy (String.list_ascii_of_string x)
              (String.list_ascii_of_string y)
              (String.list_ascii_of_string (x +:+ "-" +:+ y)))
    as (la & lb & Hrun & Hs & Hla & Hlb & Hlen).
  { by rewrite !list_of_append. }
  { by apply list_of_nonempty. }
  { by apply list_of_nonempty. }
  exists (String.string_of_list_ascii la), (String.string_of_list_ascii lb).
  split_and!.
  - rewrite Hrun. reflexivity.
  - rewrite <-(String.string_of_list_ascii_of_string (x +:+ "-" +:+ y)), Hs.
    by rewrite string_of_app.
  - by apply string_of_list_nonempty.
  - by apply string_of_list_nonempty.
  - rewrite length_list_of in Hlen.
    by rewrite <-(length_list_of (String.string_of_list_ascii la)),
      String.list_ascii_of_string_of_list_ascii.
Qed.

(** The cases of [test_path_parser]. *)
Example path_parser_tests :
  matches ".*" "foo/bar.txt" = Some (Some ∅)
  ∧ matches "foo/bar_{index}.txt" "foo/bar_1.txt" = Some (Some {["index" := "1"]})
  ∧ matches "foo/bar_{index}.txt" "foo/bar_abc.txt"
    = Some (Some {["index" := "abc"]})
  ∧ matches "foo/bar_{index}.txt" "foo/bar_abc_123.txt"
    = Some (Some {["index" := "abc_123"]})
  ∧ matches "foo/bar_{index}.txt" "foo/bar_.txt" = Some None
  ∧ matches "foo/*/bar_{index}.txt" "foo/bar_1.txt" = Some None
  ∧ matches "foo/*/bar_{index}.txt" "foo/baz/bar_1.txt"
    = Some (Some {["index" := "1"]})
  ∧ matches "foo/*/bar_{index}.txt" "foo/baz/clang/bar_1.txt" = Some None
  ∧ matches "foo/bar_{index}.(mp3|aac|wav)" "foo/bar_1.mp3"
    = Some (Some {["index" := "1"]})
  ∧ matches "foo/bar_{index}.(mp3|aac|wav)" "foo/bar_1.aac"
    = Some (Some {["index" := "1"]})
  ∧ matches "foo/bar_{index}.(mp3|aac|wav)" "foo/bar_1.wav"
    = Some (Some {["index" := "1"]})
  ∧ matches "foo/bar_{index}.(mp3|aac|wav)" "foo/bar_1.txt" = Some None
  ∧ matches "foo/bar_{index}.(mp3|aac|wav)" "foo/bar.mp3" = Some None
  ∧ matches "foo/{subset}/{name}.txt" "foo/train/doc.txt"
    = Some (Some {["subset" := "train"; "name" := "doc"]})
  ∧ matches "foo/{subset}/{name}.txt" "foo/doc.txt" = Some None
  ∧ matches "foo/(a|b)/file_{index}.txt" "foo/a/file_001.txt"
    = Some (Some {["index" := "001"]})
  ∧ matches "foo/(a|b)/file_{index}.txt" "foo/b/file_001.txt"
    = Some (Some {["index" := "001"]})
  ∧ matches "foo/(a|b)/file_{index}.txt" "foo/ab/file_001.txt" = Some None
  ∧ matches "foo/{artist}-{album!g}/tracks.json" "foo/a-a-a-a/tracks.json"
    = Some (Some {["artist" := "a"; "album" := "a-a-a"]}).
Proof. repeat split; vm_compute; reflexivity. Qed.

(** C6 (on the matcher modelled from the specification): for the pattern
    [{a}-{b}] and a path with at least one way of splitting it around a dash
    into two non-empty parts, the match is such a split and its first part
    is no longer than the first part of any other split; for [{a!g}-{b}] it
    is no shorter.  The two cases of the tests follow the same rule. *)
Theorem greediness_law :
  (∀ path x y, path = x +:+ "-" +:+ y → x ≠ "" → y ≠ "" →
     ∃ a b, matches "{a}-{b}" path = Some (Some {["a" := a; "b" := b]})
            ∧ path = a +:+ "-" +:+ b ∧ a ≠ "" ∧ b ≠ ""
            ∧ String.length a ≤ String.length x)
  ∧ (∀ path x y, path = x +:+ "-" +:+ y → x ≠ "" → y ≠ "" →
       ∃ a b, matches "{a!g}-{b}" path = Some (Some {["a" := a; "b" := b]})
              ∧ path = a +:+ "-" +:+ b ∧ a ≠ "" ∧ b ≠ ""
              ∧ String.length x ≤ String.length a)
  ∧ matches "foo/{artist}-{album}/tracks.json" "foo/a-a-a-a/tracks.json"
    = Some (Some {["artist" := "a"; "album" := "a-a-a"]})
  ∧ matches "foo/{artist!g}-{album}/tracks.json" "foo/a-a-a-a/tracks.json"
    = Some (Some {["artist" := "a-a-a"; "album" := "a"]}).
Proof.
  split_and!.
  - intros path. by apply (matches_two_parts false).
  - intros path. by apply (matches_two_parts true).
  - vm_compute. reflexivity.
  - vm_compute. reflexivity.
Qed.
End greediness_law.


(** ** Patterns: the standalone wildcard *)

Section matcher_facts.
Import PathParser Pattern.








End matcher_facts.

Section lexer_facts.
Import PathParser Pattern.



Local Arguments lex : simpl never.





End lexer_facts.

Section parser_facts.
Import PathParser Pattern.





End parser_facts.


Section segment_law.
Import PathParser Pattern.

Lemma finish_sequence its :
  finish (sequence_state its) = Some (seq_of (rev its)).
Proof. done. Qed.





End segment_law.

(** ** More on routing: what [add_if_matches] and [find_by_tag] leave behind *)

Section routing_more.
Import Files Routing Scenario Grouping.

Lemma first_seen_snoc {A} `{EqDecision A} (l : list A) x :
  first_seen (l ++ [x])
  = if decide (x ∈ first_seen l) then first_seen l else first_seen l ++ [x].
Proof. unfold first_seen. by rewrite foldl_app. Qed.

Lemma elem_of_first_seen {A} `{EqDecision A} (l : list A) x :
  x ∈ first_seen l ↔ x ∈ l.
Proof.
  induction l as [|y l IH] using rev_ind.
  - done.
  - rewrite first_seen_snoc, elem_of_app, list_elem_of_singleton, <-IH.
    destruct (decide (y ∈ first_seen l)) as [Hin|Hout].
    + split; [by left|]. intros [?| ->]; done.
    + by rewrite elem_of_app, list_elem_of_singleton.
Qed.

Lemma keys_routed_snoc tags j fs f :
  keys_routed tags j (fs ++ [f])
  = keys_routed tags j fs
    ++ match first_match tags f with
       | Some (i, key) => if decide (i = j) then [key] else []
       | None => []
       end.
Proof.
  unfold keys_routed. rewrite omap_app. f_equal. simpl.
  destruct (first_match tags f) as [[i key]|]; [|done].
  by destruct (decide (i = j)).
Qed.

(** X1: a call of [add_if_matches] that returns leaves the tag alone and
    touches one key at most.  When the parser does not match, the answer is
    [False] and the collection is unchanged.  When it answers [key], the
    answer is [True], the paths held at [key] are the former ones followed by
    the new file, every other key holds what it held, and the keys keep
    their order, a new key going last. *)
Theorem add_if_matches_touches_one_key
    (c : FileCollection) (file : Path) (added : bool) (c' : FileCollection) :
  add_if_matches c file = Ok (added, c') →
  tag c' = tag c ∧
  match call (parser (tag c)) file with
  | None => added = false ∧ c' = c
  | Some key =>
      added = true
      ∧ (∃ ps, Dict.get key (files c') = Some ps
               ∧ paths_of ps
                 = from_option paths_of [] (Dict.get key (files c)) ++ [file])
      ∧ (∀ other, other ≠ key →
           Dict.get other (files c') = Dict.get other (files c))
      ∧ Dict.keys (files c')
        = if decide (key ∈ Dict.keys (files c)) then Dict.keys (files c)
          else Dict.keys (files c) ++ [key]
  end.
Proof.
  intros Hadd. destruct (call (parser (tag c)) file) as [key|] eqn:Hcall.
  - rewrite (add_if_matches_match c file key Hcall) in Hadd.
    destruct (updated _ _ _) as [v|e] eqn:Hv; simpl in Hadd; [|done].
    injection Hadd as <- <-. simpl. split_and!; try done.
    + exists v. split; [apply get_set_eq|].
      unfold updated in Hv.
      destruct (allow_multiple (tag c)),
        (Dict.get key (files c)) as [[p|ps]|]; by simplify_eq/=.
    + intros other Hne. by apply get_set_ne.
    + apply keys_set.
  - rewrite (add_if_matches_no_match c file Hcall) in Hadd.
    by injection Hadd as <- <-.
Qed.

Lemma add_if_matches_touches_one_key_witness :
  ∃ c', add_if_matches (new_collection readme) "README.md" = Ok (true, c')
        ∧ tag c' = readme.
Proof.
  eexists. split; [reflexivity|].
  exact (proj1 (add_if_matches_touches_one_key
                  (new_collection readme) "README.md" true _ eq_refl)).
Defined.

(** X2: [find_by_tag] returns exactly when no two files of the input
    (repetitions counted) are routed to the same key of a tag with
    [allow_multiple = false]; in every other case it raises. *)
Theorem find_by_tag_returns_iff_no_collision (fs : list Path) (tags : list Tag) :
  (∃ cols, find_by_tag fs tags = Ok cols) ↔
  ∀ j t key, tags !! j = Some t → allow_multiple t = false →
             length (routed tags j key fs) ≤ 1.
Proof.
  pose proof (find_by_tag_spec fs tags) as Hspec. split.
  - intros [cols Hcols] j t key Hj Hsingle. rewrite Hcols in Hspec.
    assert (∃ c, cols !! j = Some c ∧ tag c = t) as (c & Hc & <-).
    { rewrite <-(routing_tags _ _ _ Hspec), list_lookup_fmap in Hj.
      destruct (cols !! j) as [c|]; [|done]. exists c. by simplify_eq/=. }
    by apply (routing_single _ _ _ Hspec j c key).
  - intros Hfree. destruct (find_by_tag fs tags) as [cols|e]; [by exists cols|].
    destruct Hspec as (fs1 & file & fs2 & j & key & t & -> & _ & Hj & Hsingle
                       & Hfirst & Hearlier).
    specialize (Hfree j t key Hj Hsingle). exfalso.
    rewrite routed_app, length_app in Hfree.
    unfold routed at 2 in Hfree. rewrite filter_cons_True in Hfree by done.
    destruct (routed tags j key fs1); [done|]. simpl in Hfree. lia.
Qed.

Lemma find_by_tag_key_order fs tags cols :
  find_by_tag fs tags = Ok cols →
  ∀ j c, cols !! j = Some c →
         Dict.keys (files c) = first_seen (keys_routed tags j fs).
Proof.
  revert cols. induction fs as [|f fs IH] using rev_ind; intros cols Hcols j c Hj.
  - injection Hcols as <-. rewrite list_lookup_fmap in Hj.
    destruct (tags !! j); by simplify_eq/=.
  - rewrite find_by_tag_snoc in Hcols.
    pose proof (find_by_tag_spec fs tags) as Hspec.
    destruct (find_by_tag fs tags) as [cols0|e]; [|done]. simpl in Hcols.
    pose proof (route_spec f cols0) as Hroute.
    rewrite (routing_tags _ _ _ Hspec) in Hroute.
    rewrite keys_routed_snoc.
    destruct (first_match tags f) as [[i key]|].
    + destruct Hroute as (c0 & Hc0 & _ & Hroute). rewrite Hroute in Hcols.
      destruct (updated _ _ _) as [v|e]; simpl in Hcols; [|done].
      injection Hcols as <-.
      destruct (decide (i = j)) as [->|Hne].
      * rewrite list_lookup_insert_eq in Hj by (by eapply lookup_lt_Some).
        injection Hj as <-. simpl.
        rewrite keys_set, first_seen_snoc, <-(IH cols0 eq_refl j c0 Hc0). done.
      * rewrite list_lookup_insert_ne in Hj by done.
        rewrite app_nil_r. by apply (IH cols0).
    + rewrite Hroute in Hcols. injection Hcols as <-.
      rewrite app_nil_r. by apply (IH cols0).
Qed.

(** X3: when [find_by_tag] returns, each collection lists its keys in the
    order in which the input first gave them to its tag, and each key holds
    the files routed there in the order of the input: the whole list under
    a tag with [allow_multiple = true], the only such file otherwise. *)
Theorem find_by_tag_keeps_the_input_order
    (fs : list Path) (tags : list Tag) (cols : list FileCollection) :
  find_by_tag fs tags = Ok cols →
  ∀ j c, cols !! j = Some c →
    Dict.keys (files c) = first_seen (keys_routed tags j fs)
    ∧ ∀ key, match routed tags j key fs with
             | [] => Dict.get key (files c) = None
             | file :: others =>
                 if allow_multiple (tag c)
                 then Dict.get key (files c) = Some (Many (file :: others))
                 else Dict.get key (files c) = Some (One file) ∧ others = []
             end.
Proof.
  intros Hcols j c Hj. split; [by apply (find_by_tag_key_order fs tags cols)|].
  intros key. pose proof (find_by_tag_spec fs tags) as Hspec.
  rewrite Hcols in Hspec.
  pose proof (routing_files _ _ _ Hspec j c key Hj) as Hget.
  destruct (routed tags j key fs) as [|file others] eqn:Hrouted; [done|].
  simpl in Hget. destruct (allow_multiple (tag c)) eqn:Hmul; [done|].
  split; [done|].
  pose proof (routing_single _ _ _ Hspec j c key Hj Hmul) as Hlen.
  rewrite Hrouted in Hlen. destruct others; [done|]. simpl in Hlen. lia.
Qed.

Lemma find_by_tag_keeps_the_input_order_witness :
  ∃ c, routed_collections !! 0 = Some c
       ∧ Dict.keys (files c)
         = first_seen (keys_routed [image; caption] 0
                         ["1.jpg"; "1.txt"; "notes.md"; "2.jpg"]).
Proof.
  eexists. split; [reflexivity|].
  exact (proj1 (find_by_tag_keeps_the_input_order
                  ["1.jpg"; "1.txt"; "notes.md"; "2.jpg"] [image; caption]
                  routed_collections eq_refl 0 _ eq_refl)).
Defined.
End routing_more.

(** ** More on grouping: the order, the origin and the fate of the entries *)

Section grouping_more.
Import Files Routing Scenario Grouping.

Lemma first_seen_app {A} `{EqDecision A} (l1 l2 : list A) :
  first_seen (l1 ++ l2) = foldl see (first_seen l1) l2.
Proof. unfold first_seen. by rewrite foldl_app. Qed.

Lemma first_seen_fmap {A B} `{EqDecision A} `{EqDecision B} (f : A → B) l :
  first_seen (f <$> first_seen l) = first_seen (f <$> l).
Proof.
  induction l as [|x l IH] using rev_ind; [done|].
  rewrite (first_seen_snoc l x), fmap_app.
  change (f <$> [x]) with [f x]. rewrite (first_seen_snoc (f <$> l)).
  destruct (decide (x ∈ first_seen l)) as [Hin|Hout].
  - rewrite IH, decide_True; [done|].
    apply elem_of_first_seen, list_elem_of_fmap. exists x.
    split; [done|]. by apply elem_of_first_seen.
  - rewrite fmap_app. change (f <$> [x]) with [f x].
    by rewrite first_seen_snoc, IH.
Qed.

(** *** [_sort_collections_by_type] *)

Lemma split_by_type_multi cs :
  (split_by_type cs).1.1 = filter (λ c, is_multi_part c) cs.
Proof.
  induction cs as [|c cs IH]; [done|]. simpl.
  destruct (split_by_type cs) as [[multi dist] single]. simpl in IH.
  rewrite filter_cons.
  destruct (decide (is_multi_part c)) as [Hd|Hd];
    unfold is_multi_part in Hd; destruct (kind (tag c)); simpl in *;
    try done; by rewrite IH.
Qed.

Lemma split_by_type_single cs :
  (split_by_type cs).2 = filter (λ c, is_single_part c) cs.
Proof.
  induction cs as [|c cs IH]; [done|]. simpl.
  destruct (split_by_type cs) as [[multi dist] single]. simpl in IH.
  rewrite filter_cons.
  destruct (decide (is_single_part c)) as [Hd|Hd];
    unfold is_single_part in Hd; destruct (kind (tag c)); simpl in *;
    try done; by rewrite IH.
Qed.

Lemma multi_part_collections_filter cs :
  multi_part_collections cs = filter (λ c, is_multi_part c) cs.
Proof.
  unfold multi_part_collections, _sort_collections_by_type.
  rewrite <-split_by_type_multi.
  by destruct (split_by_type cs) as [[multi dist] single].
Qed.

Lemma single_part_collections_filter cs :
  single_part_collections cs = filter (λ c, is_single_part c) cs.
Proof.
  unfold single_part_collections, _sort_collections_by_type.
  rewrite <-split_by_type_single.
  by destruct (split_by_type cs) as [[multi dist] single].
Qed.

Lemma split_by_type_perm cs :
  (split_by_type cs).1.1 ++ (split_by_type cs).1.2 ++ (split_by_type cs).2 ≡ₚ cs.
Proof.
  induction cs as [|c cs IH]; [done|]. simpl.
  destruct (split_by_type cs) as [[multi dist] single]. simpl in IH.
  destruct (kind (tag c)); simpl.
  - by rewrite IH.
  - rewrite <-IH. symmetry. apply Permutation_middle.
  - rewrite <-IH, !app_assoc. symmetry. apply Permutation_middle.
Qed.

(** X4: [_sort_collections_by_type] loses and repeats nothing: the
    multi-part and the single-part collections come out in the order of the
    input, and the three lists together are a rearrangement of the input. *)
Theorem sort_collections_by_type_is_a_partition (cs : list FileCollection) :
  multi_part_collections cs = filter (λ c, is_multi_part c) cs
  ∧ single_part_collections cs = filter (λ c, is_single_part c) cs
  ∧ multi_part_collections cs ++ distributable_collections cs
      ++ single_part_collections cs ≡ₚ cs.
Proof.
  split_and!.
  - apply multi_part_collections_filter.
  - apply single_part_collections_filter.
  - rewrite <-(split_by_type_perm cs) at 4.
    unfold multi_part_collections, distributable_collections,
      single_part_collections, _sort_collections_by_type.
    destruct (split_by_type cs) as [[multi dist] single]. simpl.
    by rewrite sorted_perm.
Qed.
(** *** The keys of the groups *)

Lemma keys_collect groups c :
  Dict.keys (collect groups c)
  = foldl see (Dict.keys groups) (Dict.keys (files c)).
Proof.
  unfold collect. generalize (name (tag c)) as n.
  generalize (files c) as items. clear c. intros items n. revert groups.
  induction items as [|[k p] items IH]; intros groups; [done|].
  simpl. rewrite IH. unfold attach. simpl. by rewrite keys_set.
Qed.

Lemma keys_foldl_collect groups cs :
  Dict.keys (foldl collect groups cs)
  = foldl see (Dict.keys groups) (all_keys cs).
Proof.
  revert groups. induction cs as [|c cs IH]; intros groups; [done|].
  unfold all_keys. simpl. rewrite foldl_app, IH, keys_collect. done.
Qed.

Lemma elem_of_all_keys cs key :
  key ∈ all_keys cs ↔ ∃ c, c ∈ cs ∧ key ∈ Dict.keys (files c).
Proof.
  unfold all_keys. rewrite list_elem_of_bind. split.
  - intros (c & Hkey & Hc). by exists c.
  - intros (c & Hc & Hkey). by exists c.
Qed.

Lemma distribute_to_key c item item' :
  distribute_to c item = Ok item' → item'.1 = item.1.
Proof.
  unfold distribute_to. destruct (join_key _ _) as [jk|e]; simpl; [|done].
  destruct (Dict.get jk (files c)); by intros [= <-].
Qed.

Lemma distribute_keys groups c groups' :
  distribute groups c = Ok groups' → Dict.keys groups' = Dict.keys groups.
Proof.
  unfold distribute. revert groups'.
  induction groups as [|item groups IH]; intros groups'; simpl.
  - by intros [= <-].
  - destruct (distribute_to c item) as [item'|e] eqn:Hitem; simpl; [|done].
    destruct (forM (distribute_to c) groups) as [rest|e]; simpl; [|done].
    intros [= <-]. unfold Dict.keys in *. rewrite !fmap_cons.
    by rewrite (IH rest eq_refl), (distribute_to_key _ _ _ Hitem).
Qed.

Lemma foldM_distribute_keys ds groups groups' :
  foldM distribute groups ds = Ok groups' → Dict.keys groups' = Dict.keys groups.
Proof.
  revert groups. induction ds as [|d ds IH]; intros groups; simpl.
  - by intros [= <-].
  - destruct (distribute groups d) as [groups1|e] eqn:Hd; simpl; [|done].
    intros Hrest. by rewrite (IH _ Hrest), (distribute_keys _ _ _ Hd).
Qed.

Lemma keys_format_groups key_formatter groups :
  Dict.keys (Files.format_groups key_formatter groups)
  = first_seen ((λ k, Formatted (key_formatter k)) <$> Dict.keys groups).
Proof.
  induction groups as [|[k g] groups IH] using rev_ind; [done|].
  assert (Dict.keys (groups ++ [(k, g)]) = Dict.keys groups ++ [k]) as ->.
  { unfold Dict.keys. by rewrite fmap_app. }
  rewrite format_groups_snoc, keys_set, IH, fmap_app.
  change ((λ k, Formatted (key_formatter k)) <$> [k])
    with [Formatted (key_formatter k)].
  by rewrite first_seen_snoc.
Qed.

(** *** Failures of [group_by_key] *)

Lemma forM_cons {A B} (f : A → result B) x l :
  forM f (x :: l) = (y ← f x; l' ← forM f l; Ok (y :: l')).
Proof. done. Qed.

Lemma distribute_formatted groups c g :
  Formatted g ∈ Dict.keys groups → distribute groups c = Raise AttributeError.
Proof.
  unfold distribute, Dict.keys.
  induction groups as [|[k group] groups IH].
  - by intros ?%elem_of_nil.
  - rewrite fmap_cons, forM_cons. intros [Hk|Hin]%elem_of_cons.
    + simpl in Hk. by subst k.
    + rewrite (IH Hin).
      destruct (distribute_to c (k, group)) as [item'|e] eqn:Hitem; [done|].
      unfold distribute_to in Hitem. simpl in Hitem.
      destruct k as [parts|g']; simpl in Hitem; [|by injection Hitem as <-].
      by destruct (Dict.get _ (files c)).
Qed.

Lemma distribute_raise groups c e :
  distribute groups c = Raise e →
  e = AttributeError ∧ ∃ g, Formatted g ∈ Dict.keys groups.
Proof.
  unfold distribute, Dict.keys.
  induction groups as [|[k group] groups IH]; [done|].
  rewrite fmap_cons, forM_cons.
  destruct (distribute_to c (k, group)) as [item'|e'] eqn:Hitem; simpl.
  - destruct (forM (distribute_to c) groups) as [rest|e']; simpl; [done|].
    intros [= ->]. destruct (IH eq_refl) as [-> [g Hg]]. split; [done|].
    exists g. by apply list_elem_of_further.
  - intros [= ->]. unfold distribute_to in Hitem. simpl in Hitem.
    destruct k as [parts|g]; simpl in Hitem.
    + by destruct (Dict.get _ (files c)).
    + injection Hitem as <-. split; [done|]. exists g. apply list_elem_of_here.
Qed.

Lemma foldM_distribute_raise ds groups e :
  foldM distribute groups ds = Raise e →
  e = AttributeError ∧ ds ≠ [] ∧ ∃ g, Formatted g ∈ Dict.keys groups.
Proof.
  revert groups. induction ds as [|d ds IH]; intros groups; simpl; [done|].
  destruct (distribute groups d) as [groups1|e'] eqn:Hd; simpl.
  - intros Hrest. destruct (IH _ Hrest) as (-> & _ & g & Hg).
    rewrite (distribute_keys _ _ _ Hd) in Hg. split_and!; [done|done|by exists g].
  - intros [= ->]. destruct (distribute_raise _ _ _ Hd) as [-> Hg]. done.
Qed.

Lemma elem_of_phase_1_keys cs key :
  key ∈ Dict.keys (foldl collect [] (multi_part_collections cs)) ↔
  ∃ c, c ∈ cs ∧ is_multi_part c ∧ key ∈ Dict.keys (files c).
Proof.
  rewrite keys_foldl_collect. change (foldl _ (Dict.keys []) ?l) with (first_seen l).
  rewrite elem_of_first_seen, elem_of_all_keys, multi_part_collections_filter.
  setoid_rewrite list_elem_of_filter. split.
  - intros (c & [Hmp Hc] & Hkey). by exists c.
  - intros (c & Hc & Hmp & Hkey). by exists c.
Qed.

(** X5: [group_by_key] can only fail in its second loop, with the
    [AttributeError] of a formatted (string) key that has no [keys]: it
    raises exactly when there is a distributable collection and a multi-part
    collection holds a formatted key, and it returns in every other case. *)
Theorem group_by_key_fails_on_formatted_group_keys
    (cs : list FileCollection) (key_formatter : Key → GroupKey) :
  match group_by_key cs key_formatter with
  | Ok _ =>
      (∀ c, c ∈ cs → ¬ is_distributable c)
      ∨ (∀ c key, c ∈ cs → is_multi_part c → key ∈ Dict.keys (files c) →
                  ∃ parts, key = MultiPart parts)
  | Raise e =>
      e = AttributeError
      ∧ (∃ c, c ∈ cs ∧ is_distributable c)
      ∧ (∃ c g, c ∈ cs ∧ is_multi_part c ∧ Formatted g ∈ Dict.keys (files c))
  end.
Proof.
  rewrite group_by_key_phases.
  assert (∀ d, d ∈ distributable_collections cs ↔ d ∈ cs ∧ is_distributable d)
    as Hdist.
  { intros d. rewrite distributable_collections_sorted, sorted_perm.
    rewrite list_elem_of_filter. tauto. }
  destruct (foldM distribute _ (distributable_collections cs))
    as [groups|e] eqn:Hfold; simpl.
  - destruct (distributable_collections cs) as [|d ds] eqn:Hds.
    + left. intros c Hc Hd. assert (c ∈ []) as Hin by (apply Hdist; done).
      by apply elem_of_nil in Hin.
    + right. intros c [parts|g] Hc Hmp Hkey; [by exists parts|]. exfalso.
      simpl in Hfold.
      rewrite (distribute_formatted _ d g) in Hfold; [done|].
      apply elem_of_phase_1_keys. by exists c.
  - apply foldM_distribute_raise in Hfold as (-> & Hds & g & Hg).
    split_and!; [done| |].
    + destruct (distributable_collections cs) as [|d ds] eqn:Hds'; [done|].
      exists d. apply Hdist. apply list_elem_of_here.
    + apply elem_of_phase_1_keys in Hg as (c & Hc & Hmp & Hg). by exists c, g.
Qed.

(** *** Colliding formatted keys *)

(** X6: when the formatter sends two keys to the same group key, the
    dictionary of line 78 keeps one group for them: it stands where the
    first of the keys stood and it is the group of the last of them, the
    earlier groups being dropped. *)
Theorem colliding_formatted_keys_keep_the_last_group
    (key_formatter : Key → GroupKey) (groups : dict Key Group) :
  Dict.keys (Files.format_groups key_formatter groups)
  = first_seen ((λ k, Formatted (key_formatter k)) <$> Dict.keys groups)
  ∧ ∀ before k group after,
      groups = before ++ (k, group) :: after →
      (∀ k', k' ∈ Dict.keys after → key_formatter k' ≠ key_formatter k) →
      Dict.get (Formatted (key_formatter k))
               (Files.format_groups key_formatter groups)
      = Some group.
Proof.
  split; [apply keys_format_groups|].
  intros before k group after -> Hafter.
  induction after as [|[k' group'] after IH] using rev_ind.
  - rewrite format_groups_snoc. apply get_set_eq.
  - rewrite app_comm_cons, app_assoc, format_groups_snoc. simpl.
    rewrite get_set_ne.
    + apply IH. intros k'' Hk''. apply Hafter. unfold Dict.keys.
      rewrite fmap_app. apply elem_of_app. by left.
    + intros [= Heq]. apply (Hafter k'); [|done]. unfold Dict.keys.
      rewrite fmap_app. apply elem_of_app. right. apply list_elem_of_here.
Qed.

(** *** The order of the groups *)

(** X7: the groups [group_by_key] returns come in the order of the keys:
    first the formatted keys of the multi-part collections, collection
    after collection, then the keys of the single-part collections, each key
    standing where it first occurs.  A distributable collection adds no
    group. *)
Theorem group_by_key_lists_groups_by_first_key
    (cs : list FileCollection) (key_formatter : Key → GroupKey)
    (out : dict Key Group) :
  group_by_key cs key_formatter = Ok out →
  Dict.keys out
  = first_seen
      (((λ k, Formatted (key_formatter k))
          <$> all_keys (filter (λ c, is_multi_part c) cs))
       ++ all_keys (filter (λ c, is_single_part c) cs)).
Proof.
  rewrite group_by_key_phases.
  destruct (foldM distribute _ _) as [groups|e] eqn:Hfold; simpl; [|done].
  intros [= <-]. apply foldM_distribute_keys in Hfold.
  rewrite keys_foldl_collect, keys_format_groups, Hfold, keys_foldl_collect.
  change (foldl _ (Dict.keys []) ?l) with (first_seen l).
  rewrite first_seen_fmap, first_seen_app.
  by rewrite multi_part_collections_filter, single_part_collections_filter.
Qed.

(** *** Where the entries of the groups come from *)

Lemma elem_of_set {K V} `{EqDecision K} (d : dict K V) k v x :
  x ∈ Dict.set k v d → x = (k, v) ∨ x ∈ d.
Proof.
  induction d as [|[k' v'] d IH]; simpl.
  - intros ->%list_elem_of_singleton. by left.
  - destruct (decide (k = k')) as [->|Hne].
    + intros [->|Hin]%elem_of_cons; [by left|]. right. by apply list_elem_of_further.
    + intros [->|Hin]%elem_of_cons; [right; apply list_elem_of_here|].
      destruct (IH Hin) as [->|Hd]; [by left|]. right. by apply list_elem_of_further.
Qed.

Lemma traced_attach cs groups c k p :
  c ∈ cs → (k, p) ∈ files c →
  traced cs groups → traced cs (attach (name (tag c)) groups (k, p)).
Proof.
  intros Hc Hkp Hgroups key group n paths Hin Hn. unfold attach in Hin.
  simpl in Hin. apply elem_of_set in Hin as [[= -> ->]|Hin]; [|by eapply Hgroups].
  rewrite get_set in Hn. destruct (decide (name (tag c) = n)) as [<-|Hne].
  - injection Hn as <-. exists c. split_and!; [done|done|by exists k].
  - destruct (Dict.get k groups) as [old|] eqn:Hold; simpl in Hn; [|done].
    apply get_Some_elem in Hold. by eapply Hgroups.
Qed.

Lemma traced_collect cs groups c :
  c ∈ cs → traced cs groups → traced cs (collect groups c).
Proof.
  intros Hc. unfold collect.
  assert (∀ item, item ∈ files c → item ∈ files c) as Hitems by done.
  revert Hitems groups. generalize (files c) at 1 3 as items.
  induction items as [|[k p] items IH]; intros Hitems groups Hgroups; [done|].
  simpl. apply IH.
  - intros item Hitem. by apply Hitems, list_elem_of_further.
  - apply traced_attach; [done| |done]. apply Hitems, list_elem_of_here.
Qed.

Lemma traced_foldl_collect cs groups cs' :
  (∀ c, c ∈ cs' → c ∈ cs) → traced cs groups →
  traced cs (foldl collect groups cs').
Proof.
  revert groups. induction cs' as [|c cs' IH]; intros groups Hsub Hgroups; [done|].
  simpl. apply IH.
  - intros c' Hc'. by apply Hsub, list_elem_of_further.
  - apply traced_collect; [|done]. apply Hsub, list_elem_of_here.
Qed.

Lemma forM_elem {A B} (f : A → result B) l l' y :
  forM f l = Ok l' → y ∈ l' → ∃ x, x ∈ l ∧ f x = Ok y.
Proof.
  revert l'. induction l as [|x l IH]; intros l'; rewrite ?forM_cons.
  - intros [= <-] Hy. by apply elem_of_nil in Hy.
  - destruct (f x) as [y'|e] eqn:Hx; simpl; [|done].
    destruct (forM f l) as [rest|e]; simpl; [|done].
    intros [= <-] [->|Hy]%elem_of_cons.
    + exists x. split; [apply list_elem_of_here|done].
    + destruct (IH rest eq_refl Hy) as (x' & Hx' & Hfx').
      exists x'. split; [by apply list_elem_of_further|done].
Qed.

Lemma traced_distribute cs groups c groups' :
  c ∈ cs → distribute groups c = Ok groups' →
  traced cs groups → traced cs groups'.
Proof.
  intros Hc Hd Hgroups key group n paths Hin Hn.
  destruct (forM_elem _ _ _ _ Hd Hin) as ([key0 group0] & Hin0 & Hitem).
  unfold distribute_to in Hitem. simpl in Hitem.
  destruct (join_key _ key0) as [jk|e]; simpl in Hitem; [|done].
  destruct (Dict.get jk (files c)) as [path|] eqn:Hpath.
  - injection Hitem as <- <-. rewrite get_set in Hn.
    destruct (decide (name (tag c) = n)) as [<-|Hne].
    + injection Hn as <-. exists c. split_and!; [done|done|].
      exists jk. by apply get_Some_elem.
    + by eapply Hgroups.
  - injection Hitem as <- <-. by eapply Hgroups.
Qed.

Lemma traced_foldM_distribute cs ds groups groups' :
  (∀ d, d ∈ ds → d ∈ cs) → foldM distribute groups ds = Ok groups' →
  traced cs groups → traced cs groups'.
Proof.
  revert groups. induction ds as [|d ds IH]; intros groups Hsub; simpl.
  - by intros [= <-].
  - destruct (distribute groups d) as [groups1|e] eqn:Hd; simpl; [|done].
    intros Hrest Hgroups. eapply IH; [|done|].
    + intros d' Hd'. by apply Hsub, list_elem_of_further.
    + eapply traced_distribute; [|done|done]. apply Hsub, list_elem_of_here.
Qed.

Lemma elem_of_format_groups key_formatter groups key group :
  (key, group) ∈ Files.format_groups key_formatter groups →
  ∃ k, (k, group) ∈ groups.
Proof.
  induction groups as [|[k g] groups IH] using rev_ind.
  - by intros ?%elem_of_nil.
  - rewrite format_groups_snoc.
    intros [[= -> ->]|Hin]%elem_of_set.
    + exists k. apply elem_of_app. right. apply list_elem_of_here.
    + destruct (IH Hin) as [k' Hk']. exists k'. apply elem_of_app. by left.
Qed.

Lemma sorted_collections_sub cs c :
  c ∈ multi_part_collections cs ∨ c ∈ distributable_collections cs
  ∨ c ∈ single_part_collections cs ↔ c ∈ cs.
Proof.
  rewrite <-(split_by_type_perm cs) at 4.
  unfold multi_part_collections, distributable_collections,
    single_part_collections, _sort_collections_by_type.
  destruct (split_by_type cs) as [[multi dist] single]. simpl.
  by rewrite sorted_perm, !elem_of_app.
Qed.

(** X8: [group_by_key] invents nothing: whatever a group of the result
    holds under a tag name is a value stored by a collection of the input
    whose tag has that name. *)
Theorem group_by_key_invents_nothing
    (cs : list FileCollection) (key_formatter : Key → GroupKey)
    (out : dict Key Group) :
  group_by_key cs key_formatter = Ok out →
  ∀ key n paths, entry out key n paths →
    ∃ c, c ∈ cs ∧ name (tag c) = n ∧ stores c paths.
Proof.
  rewrite group_by_key_phases.
  destruct (foldM distribute _ _) as [groups|e] eqn:Hfold; simpl; [|done].
  intros [= <-] key n paths (group & Hgroup & Hn).
  apply get_Some_elem in Hgroup. revert key group n paths Hgroup Hn.
  apply traced_foldl_collect.
  { intros c Hc. apply sorted_collections_sub. by right; right. }
  intros key group n paths [k Hk]%elem_of_format_groups. clear key.
  revert k group n paths Hk.
  eapply traced_foldM_distribute; [|exact Hfold|].
  { intros c Hc. apply sorted_collections_sub. by right; left. }
  apply traced_foldl_collect.
  { intros c Hc. apply sorted_collections_sub. by left. }
  by intros key group n paths ?%elem_of_nil.
Qed.

(** *** What becomes of the files of a multi-part tag *)

Lemma NoDup_first_seen {A} `{EqDecision A} (l : list A) : NoDup (first_seen l).
Proof.
  induction l as [|x l IH] using rev_ind; [apply NoDup_nil_2|].
  rewrite first_seen_snoc. destruct (decide (x ∈ first_seen l)); [done|].
  apply NoDup_app. split_and!; [done| |apply NoDup_singleton].
  by intros y Hy ->%list_elem_of_singleton.
Qed.

Lemma entry_attach_other groups key n paths n' item :
  n' ≠ n → entry groups key n paths → entry (attach n' groups item) key n paths.
Proof.
  intros Hne (group & Hgroup & Hn). unfold entry, attach.
  rewrite get_set. destruct (decide (item.1 = key)) as [->|Hkey].
  - eexists. split; [done|]. rewrite Hgroup. simpl. by rewrite get_set_ne.
  - by exists group.
Qed.

Lemma entry_collect_other groups key n paths c :
  name (tag c) ≠ n → entry groups key n paths →
  entry (collect groups c) key n paths.
Proof.
  intros Hne. unfold collect. generalize (files c) as items. intros items.
  revert groups. induction items as [|item items IH]; intros groups Hentry; [done|].
  simpl. by apply IH, entry_attach_other.
Qed.

Lemma entry_collect_own groups key paths c :
  Dict.wf (files c) → Dict.get key (files c) = Some paths →
  entry (collect groups c) key (name (tag c)) paths.
Proof.
  intros Hwf Hget. unfold entry. rewrite collect_get, Hget by done.
  destruct (Dict.get key groups) as [group|]; eexists; (split; [done|]).
  - apply get_set_eq.
  - simpl. by rewrite decide_True.
Qed.

Lemma entry_foldl_collect cs groups key paths c :
  Dict.wf (files c) → Dict.get key (files c) = Some paths →
  (∀ c', c' ∈ cs → name (tag c') = name (tag c) → c' = c) →
  entry groups key (name (tag c)) paths ∨ c ∈ cs →
  entry (foldl collect groups cs) key (name (tag c)) paths.
Proof.
  intros Hwf Hget. revert groups.
  induction cs as [|c' cs IH]; intros groups Hname Hstart.
  - destruct Hstart as [?|Hin]; [done|]. by apply elem_of_nil in Hin.
  - simpl. apply IH.
    { intros c'' Hc''. by apply Hname, list_elem_of_further. }
    destruct (decide (name (tag c') = name (tag c))) as [Heq|Hne].
    + left. rewrite (Hname c' (list_elem_of_here _ _) Heq).
      by apply entry_collect_own.
    + destruct Hstart as [Hentry|[->|Hin]%elem_of_cons]; [|done|by right].
      left. by apply entry_collect_other.
Qed.

Lemma entry_distribute_other groups d groups' key n paths :
  name (tag d) ≠ n → distribute groups d = Ok groups' →
  entry groups key n paths → entry groups' key n paths.
Proof.
  intros Hne. unfold distribute, entry. revert groups'.
  induction groups as [|[k0 g0] groups IH]; intros groups';
    rewrite ?forM_cons.
  - by intros [= <-].
  - destruct (distribute_to d (k0, g0)) as [[k1 g1]|e] eqn:Hitem; simpl; [|done].
    destruct (forM (distribute_to d) groups) as [rest|e]; simpl; [|done].
    intros [= <-] (group & Hgroup & Hn). simpl.
    pose proof (distribute_to_key _ _ _ Hitem) as Hk. simpl in Hk. subst k1.
    destruct (decide (key = k0)) as [->|Hkey].
    + injection Hgroup as <-. exists g1. split; [done|].
      unfold distribute_to in Hitem. simpl in Hitem.
      destruct (join_key _ k0) as [jk|e]; simpl in Hitem; [|done].
      destruct (Dict.get jk (files d)); injection Hitem as <-; [|done].
      by rewrite get_set_ne.
    + apply (IH rest eq_refl). by exists group.
Qed.

Lemma entry_foldM_distribute_other ds groups groups' key n paths :
  (∀ d, d ∈ ds → name (tag d) ≠ n) → foldM distribute groups ds = Ok groups' →
  entry groups key n paths → entry groups' key n paths.
Proof.
  revert groups. induction ds as [|d ds IH]; intros groups Hne; simpl.
  - by intros [= <-].
  - destruct (distribute groups d) as [groups1|e] eqn:Hd; simpl; [|done].
    intros Hrest Hentry. eapply IH; [|done|].
    + intros d' Hd'. by apply Hne, list_elem_of_further.
    + eapply entry_distribute_other; [|done|done]. apply Hne, list_elem_of_here.
Qed.

Lemma group_by_key_keeps_multi_part_entries cs key_formatter out c key paths :
  group_by_key cs key_formatter = Ok out →
  c ∈ cs → is_multi_part c →
  Dict.wf (files c) → Dict.get key (files c) = Some paths →
  (∀ c', c' ∈ cs → name (tag c') = name (tag c) → c' = c) →
  (∀ c' key', c' ∈ cs → key' ∈ Dict.keys (files c') →
              key_formatter key' = key_formatter key → key' = key) →
  entry out (Formatted (key_formatter key)) (name (tag c)) paths.
Proof.
  rewrite group_by_key_phases.
  destruct (foldM distribute _ _) as [groups|e] eqn:Hfold; simpl; [|done].
  intros [= <-] Hc Hmp Hwf Hget Hname Hinj.
  assert (∀ c', c' ∈ cs → c' ≠ c → name (tag c') ≠ name (tag c)) as Hother.
  { intros c' Hc' Hne Heq. by apply Hne, Hname. }
  assert (entry (foldl collect [] (multi_part_collections cs)) key
            (name (tag c)) paths) as Hphase1.
  { apply entry_foldl_collect; [done|done| |].
    - intros c' Hc'. apply Hname, sorted_collections_sub. by left.
    - right. rewrite multi_part_collections_filter. by apply list_elem_of_filter. }
  assert (entry groups key (name (tag c)) paths) as Hphase2.
  { eapply entry_foldM_distribute_other; [|exact Hfold|exact Hphase1].
    intros d Hd. apply Hother.
    - apply sorted_collections_sub. by right; left.
    - intros ->. revert Hd Hmp.
      rewrite distributable_collections_sorted, sorted_perm, list_elem_of_filter.
      unfold is_distributable, is_multi_part. destruct (kind (tag c)); tauto. }
  assert (entry (Files.format_groups key_formatter groups)
            (Formatted (key_formatter key)) (name (tag c)) paths) as Hphase3.
  { destruct Hphase2 as (group & Hgroup & Hn). exists group. split; [|done].
    rewrite format_groups_get; [done| |].
    - unfold Dict.wf. rewrite (foldM_distribute_keys _ _ _ Hfold).
      rewrite keys_foldl_collect. apply NoDup_first_seen.
    - intros key'. rewrite (foldM_distribute_keys _ _ _ Hfold).
      intros (c' & Hc' & _ & Hkey')%elem_of_phase_1_keys. by apply (Hinj c'). }
  clear Hphase1 Hphase2.
  assert (∀ s, s ∈ single_part_collections cs → name (tag s) ≠ name (tag c))
    as Hsingle.
  { intros s Hs. apply Hother.
    - apply sorted_collections_sub. by right; right.
    - intros ->. revert Hs Hmp.
      rewrite single_part_collections_filter, list_elem_of_filter.
      unfold is_single_part, is_multi_part. destruct (kind (tag c)); tauto. }
  revert Hsingle Hphase3. generalize (Files.format_groups key_formatter groups).
  induction (single_part_collections cs) as [|s ss IH]; intros formatted Hss Hentry;
    [done|].
  simpl. apply IH.
  - intros s' Hs'. by apply Hss, list_elem_of_further.
  - apply entry_collect_other; [|done]. apply Hss, list_elem_of_here.
Qed.

(** X9: from the files to the groups.  When the tags have distinct names
    and the formatter tells apart the keys the files are routed to, a file
    whose first matching tag is a multi-part tag is found in the result of
    [group_by_key], in the group of its formatted key, under the name of
    that tag. *)
Theorem files_of_multi_part_tags_reach_their_group
    (fs : list Path) (tags : list Tag) (cols : list FileCollection)
    (key_formatter : Key → GroupKey) (out : dict Key Group)
    (j : nat) (t : Tag) (key : Key) (file : Path) :
  find_by_tag fs tags = Ok cols →
  group_by_key cols key_formatter = Ok out →
  NoDup (name <$> tags) →
  (∀ file' j' key', file' ∈ fs → first_match tags file' = Some (j', key') →
                    key_formatter key' = key_formatter key → key' = key) →
  tags !! j = Some t → kind t = MultiPartTag →
  file ∈ fs → first_match tags file = Some (j, key) →
  ∃ paths, entry out (Formatted (key_formatter key)) (name t) paths
           ∧ file ∈ paths_of paths.
Proof.
  intros Hcols Hout Hnames Hinj Hj Hkind Hfile Hfirst.
  pose proof (find_by_tag_spec fs tags) as Hspec. rewrite Hcols in Hspec.
  assert (∃ c, cols !! j = Some c ∧ tag c = t) as (c & Hc & <-).
  { rewrite <-(routing_tags _ _ _ Hspec), list_lookup_fmap in Hj.
    destruct (cols !! j) as [c|]; [|done]. exists c. by simplify_eq/=. }
  assert (file ∈ routed tags j key fs) as Hrouted.
  { unfold routed. by apply list_elem_of_filter. }
  pose proof (routing_files _ _ _ Hspec j c key Hc) as Hget.
  destruct (routed tags j key fs) as [|p l] eqn:Hl.
  { by apply elem_of_nil in Hrouted. }
  simpl in Hget.
  exists (if allow_multiple (tag c) then Many (p :: l) else One p). split.
  - apply (group_by_key_keeps_multi_part_entries cols key_formatter out c key);
      try done.
    + by eapply list_elem_of_lookup_2.
    + unfold is_multi_part. by rewrite Hkind.
    + apply (routing_wf _ _ _ Hspec). by eapply list_elem_of_lookup_2.
    + intros c' [j' Hc']%list_elem_of_lookup_1 Heq.
      assert (j' = j) as ->; [|by simplify_eq].
      eapply NoDup_lookup; [exact Hnames| |].
      * rewrite <-(routing_tags _ _ _ Hspec), <-list_fmap_compose,
          list_lookup_fmap, Hc'. done.
      * rewrite <-(routing_tags _ _ _ Hspec), <-list_fmap_compose,
          list_lookup_fmap, Hc. simpl. by rewrite Heq.
    + intros c' key' [j' Hc']%list_elem_of_lookup_1 Hkey' Heq.
      apply get_is_Some in Hkey' as [ps Hps].
      rewrite (routing_files _ _ _ Hspec j' c' key' Hc') in Hps.
      destruct (routed tags j' key' fs) as [|file' l'] eqn:Hl'; [done|].
      assert (file' ∈ routed tags j' key' fs) as Hfile'.
      { rewrite Hl'. apply list_elem_of_here. }
      apply list_elem_of_filter in Hfile' as [Hfirst' Hfile'].
      by apply (Hinj file' j' key').
  - destruct (allow_multiple (tag c)) eqn:Hmul; [done|]. simpl.
    pose proof (routing_single _ _ _ Hspec j c key Hc Hmul) as Hlen.
    rewrite Hl in Hlen. destruct l; [done|]. simpl in Hlen. lia.
Qed.

Lemma group_by_key_lists_groups_by_first_key_witness :
  Dict.keys routed_groups
  = first_seen
      (((λ k, Formatted (format_parts ["id"] k))
          <$> all_keys (filter (λ c, is_multi_part c) routed_collections))
       ++ all_keys (filter (λ c, is_single_part c) routed_collections)).
Proof.
  exact (group_by_key_lists_groups_by_first_key routed_collections
           (format_parts ["id"]) routed_groups eq_refl).
Defined.

Lemma group_by_key_invents_nothing_witness :
  ∃ c, c ∈ routed_collections ∧ name (tag c) = "caption"
       ∧ stores c (One "1.txt").
Proof.
  apply (group_by_key_invents_nothing routed_collections
           (format_parts ["id"]) routed_groups eq_refl (Formatted "1")).
  eexists. split; reflexivity.
Defined.

Lemma files_of_multi_part_tags_reach_their_group_witness :
  ∃ paths, entry routed_groups (Formatted "1") "caption" paths
           ∧ "1.txt" ∈ paths_of paths.
Proof.
  apply (files_of_multi_part_tags_reach_their_group
           ["1.jpg"; "1.txt"; "notes.md"; "2.jpg"] [image; caption]
           routed_collections (format_parts ["id"]) routed_groups
           1 caption (key_of [("id", "1")]) "1.txt");
    try reflexivity.
  - apply NoDup_cons. split; [|apply NoDup_singleton].
    by intros [=]%list_elem_of_singleton.
  - intros file' j' key' Hfile' Hfirst' Heq.
    repeat (apply elem_of_cons in Hfile' as [->|Hfile']);
      [..|by apply elem_of_nil in Hfile'];
      vm_compute in Hfirst'; try discriminate Hfirst';
      injection Hfirst' as <- <-; try reflexivity; vm_compute in Heq;
      discriminate Heq.
  - apply list_elem_of_further, list_elem_of_here.
Defined.

End grouping_more.

Section distribution_more.
Import Files Routing Scenario Grouping.

(** *** Several distributable collections *)

Lemma foldM_distribute_joined ds groups :
  (∀ key, key ∈ Dict.keys groups → ∃ parts, key = MultiPart parts) →
  foldM distribute groups ds
  = Ok ((λ item, (item.1, foldl (λ group d, joined d item.1 group) item.2 ds))
          <$> groups).
Proof.
  revert groups. induction ds as [|d ds IH]; intros groups Hkeys; simpl.
  - f_equal. symmetry. etrans; [|apply list_fmap_id].
    apply list_fmap_ext. by intros _ [key group] _.
  - rewrite (distribute_joined d groups Hkeys). simpl. rewrite IH.
    + f_equal. rewrite <-list_fmap_compose. apply list_fmap_ext.
      by intros _ [key group] _.
    + intros key. rewrite (keys_rebuild (joined d)). apply Hkeys.
Qed.

Lemma joined_offered d parts group :
  joined d (MultiPart parts) group
  = match offered d parts with
    | Some path => Dict.set (name (tag d)) path group
    | None => group
    end.
Proof. done. Qed.

Lemma foldl_joined_last before d after parts group path :
  offered d parts = Some path →
  (∀ d', d' ∈ after → name (tag d') = name (tag d) →
         offered d' parts = None ∨ offered d' parts = Some path) →
  Dict.get (name (tag d))
    (foldl (λ group d, joined d (MultiPart parts) group) group
       (before ++ d :: after))
  = Some path.
Proof.
  intros Hd Hafter. rewrite foldl_app. cbn [foldl].
  rewrite (joined_offered d), Hd.
  generalize (foldl (λ group d, joined d (MultiPart parts) group) group before).
  intros start.
  assert (Dict.get (name (tag d)) (Dict.set (name (tag d)) path start)
          = Some path) as Hstart by apply get_set_eq.
  revert Hstart. generalize (Dict.set (name (tag d)) path start). clear start.
  induction after as [|d' after IH]; intros start Hstart; [done|].
  cbn [foldl]. apply IH.
  - intros d'' Hd''. by apply Hafter, list_elem_of_further.
  - rewrite joined_offered.
    destruct (decide (name (tag d') = name (tag d))) as [Heq|Hne].
    + destruct (Hafter d' (list_elem_of_here _ _) Heq) as [-> | ->]; [done|].
      rewrite Heq. apply get_set_eq.
    + destruct (offered d' parts); [|done]. by rewrite get_set_ne.
Qed.

(** X13: why the distributable collections are sorted.  The second loop of
    [group_by_key] does not fail on groups with multi-part keys and keeps
    their keys; when several distributable collections with the same tag
    name have a value for a group, the group receives the value of the one
    whose parser has the most key parts, whatever the order of the input. *)
Theorem most_key_parts_win_among_distributable_collections
    (cs : list FileCollection) (groups : dict Key Group) :
  (∀ key, key ∈ Dict.keys groups → ∃ parts, key = MultiPart parts) →
  ∃ groups',
    foldM distribute groups (distributable_collections cs) = Ok groups'
    ∧ Dict.keys groups' = Dict.keys groups
    ∧ ∀ parts group d path,
        Dict.get (MultiPart parts) groups = Some group →
        d ∈ cs → is_distributable d → offered d parts = Some path →
        (∀ d', d' ∈ cs → is_distributable d' →
               name (tag d') = name (tag d) → is_Some (offered d' parts) →
               d' = d ∨ nb_key_parts d' < nb_key_parts d) →
        entry groups' (MultiPart parts) (name (tag d)) path.
Proof.
  intros Hkeys. eexists. split; [by apply foldM_distribute_joined|].
  split.
  { apply (keys_rebuild
             (λ key group, foldl (λ group d, joined d key group) group
                             (distributable_collections cs))). }
  intros parts group d path Hgroup Hd Hdist Hpath Hwins.
  eexists. split.
  { rewrite (get_rebuild
               (λ key group, foldl (λ group d, joined d key group) group
                               (distributable_collections cs))), Hgroup.
    done. }
  assert (∀ d', d' ∈ distributable_collections cs ↔ d' ∈ cs ∧ is_distributable d')
    as Hin.
  { intros d'. rewrite distributable_collections_sorted, sorted_perm.
    rewrite list_elem_of_filter. tauto. }
  assert (d ∈ distributable_collections cs) as Hsplit by by apply Hin.
  apply list_elem_of_split in Hsplit as (before & after & Hsplit).
  rewrite Hsplit. apply foldl_joined_last; [done|].
  intros d' Hd' Hname.
  destruct (offered d' parts) as [path'|] eqn:Hpath'; [|by left]. right.
  assert (d' ∈ cs ∧ is_distributable d') as [Hcs' Hdist'].
  { apply Hin. rewrite Hsplit. apply elem_of_app. right.
    by apply list_elem_of_further. }
  destruct (Hwins d' Hcs' Hdist' Hname) as [->|Hless].
  - by rewrite Hpath'.
  - by rewrite Hpath' in Hpath.
  - exfalso.
    pose proof (sorted_sorted nb_key_parts
                  (filter (λ c, is_distributable c) cs)) as Hsorted.
    rewrite <-distributable_collections_sorted, Hsplit in Hsorted.
    rewrite (cons_middle d before after), app_assoc in Hsorted.
    assert (by_key nb_key_parts d d') as Hle.
    { eapply StronglySorted_app_1_elem_of; [exact Hsorted| |exact Hd'].
      apply elem_of_app. right. apply list_elem_of_here. }
    unfold by_key in Hle. lia.
Qed.
Lemma most_key_parts_win_among_distributable_collections_witness :
  ∃ groups',
    foldM distribute crop_groups
      (distributable_collections [crop_caption_collection; caption_collection])
    = Ok groups'
    ∧ entry groups' (key_of [("id", "1"); ("crop_index", "0")]) "caption"
        (One "1_0.txt")
    ∧ entry groups' (key_of [("id", "1"); ("crop_index", "1")]) "caption"
        (One "1.txt").
Proof.
  destruct (most_key_parts_win_among_distributable_collections
              [crop_caption_collection; caption_collection] crop_groups)
    as (groups' & Hd & _ & Hentry).
  - intros key Hin. unfold crop_groups, Dict.keys in Hin. simpl in Hin.
    repeat (apply elem_of_cons in Hin as [->|Hin]; [eexists; reflexivity|]).
    by apply elem_of_nil in Hin.
  - exists groups'. split; [exact Hd|]. split.
    + apply (Hentry (list_to_map [("id", "1"); ("crop_index", "0")])
               [("crop", One "1_0.jpg")] crop_caption_collection
               (One "1_0.txt")).
      * reflexivity.
      * apply list_elem_of_here.
      * exact I.
      * vm_compute. reflexivity.
      * intros d' Hd' _ _ _.
        apply elem_of_cons in Hd' as [->|Hd']; [by left|].
        apply list_elem_of_singleton in Hd' as ->. right.
        vm_compute. lia.
    + apply (Hentry (list_to_map [("id", "1"); ("crop_index", "1")])
               [("crop", One "1_1.jpg")] caption_collection (One "1.txt")).
      * reflexivity.
      * apply list_elem_of_further, list_elem_of_here.
      * exact I.
      * vm_compute. reflexivity.
      * intros d' Hd' _ _ Hoffer.
        apply elem_of_cons in Hd' as [->|Hd'].
        -- vm_compute in Hoffer. by destruct Hoffer.
        -- apply list_elem_of_singleton in Hd' as ->. by left.
Defined.
End distribution_more.

(** ** Writing the groups: [prepare_groups] and [format_groups] *)

Section output_facts.
Import Files Routing OutputFormatters Formatting.
Context (relative_to_path : Path → Path → option Path).

Lemma each_cons {A B} (f : A → outcome B) x l :
  each f (x :: l) = (y ← f x; l' ← each f l; Returns (y :: l')).
Proof. done. Qed.

(** A loop over [l] whose body goes through the parts of each element: it
    returns when every part is fine, and raises at the first part that is
    not. *)
Lemma each_parts {A B P} (ok : P → Prop) (bad : P → error → Prop)
    (parts : A → list P) (f : A → outcome B) (g : A → B) l :
  (∀ x, x ∈ l →
     match f x with
     | Returns y => Forall ok (parts x) ∧ y = g x
     | Raises e => ∃ before p after, parts x = before ++ p :: after
                                     ∧ bad p e ∧ Forall ok before
     end) →
  match each f l with
  | Returns l' => Forall ok (l ≫= parts) ∧ l' = g <$> l
  | Raises e => ∃ before p after, l ≫= parts = before ++ p :: after
                                  ∧ bad p e ∧ Forall ok before
  end.
Proof.
  induction l as [|x l IH]; intros Hbody.
  - split; [apply Forall_nil_2|done].
  - rewrite each_cons. pose proof (Hbody x (list_elem_of_here _ _)) as Hx.
    change ((x :: l) ≫= parts) with (parts x ++ (l ≫= parts)).
    destruct (f x) as [y|e]; simpl.
    + destruct Hx as [Hok ->].
      specialize (IH (λ x' Hx', Hbody x' (list_elem_of_further _ _ _ Hx'))).
      destruct (each f l) as [l'|e]; simpl.
      * destruct IH as [Hoks ->]. split; [|done]. by apply Forall_app.
      * destruct IH as (before & p & after & Hparts & Hbad & Hbefore).
        exists (parts x ++ before), p, after. rewrite Hparts, app_assoc.
        split_and!; [done|done|by apply Forall_app].
    + destruct Hx as (before & p & after & Hparts & Hbad & Hbefore).
      exists before, p, (after ++ (l ≫= parts)).
      rewrite Hparts, <-app_assoc. done.
Qed.

Lemma bind_singletons {A} (l : list A) : l ≫= (λ x, [x]) = l.
Proof. induction l as [|x l IH]; [done|]. simpl. f_equal. exact IH. Qed.

Lemma relative_spec base path :
  match relative relative_to_path base path with
  | Returns path' =>
      Forall (relative_ok relative_to_path base) [path]
      ∧ path' = relative_or_same relative_to_path base path
  | Raises e =>
      ∃ before p after, [path] = before ++ p :: after
                        ∧ relative_bad relative_to_path base p e
                        ∧ Forall (relative_ok relative_to_path base) before
  end.
Proof.
  unfold relative. destruct (relative_to_path path base) as [path'|] eqn:Hrel.
  - split; [|unfold relative_or_same; by rewrite Hrel].
    apply Forall_singleton. unfold relative_ok. by rewrite Hrel.
  - exists [], path, []. split_and!; [done|by split|apply Forall_nil_2].
Qed.

Lemma relative_value_spec base value :
  match relative_value relative_to_path base value with
  | Returns value' =>
      Forall (relative_ok relative_to_path base) (paths_of value)
      ∧ value' = map_value (relative_or_same relative_to_path base) value
  | Raises e =>
      ∃ before p after, paths_of value = before ++ p :: after
                        ∧ relative_bad relative_to_path base p e
                        ∧ Forall (relative_ok relative_to_path base) before
  end.
Proof.
  destruct value as [path|paths]; simpl.
  - pose proof (relative_spec base path) as Hpath.
    destruct (relative relative_to_path base path) as [path'|e]; simpl; [|done].
    by destruct Hpath as [Hok ->].
  - pose proof (each_parts (relative_ok relative_to_path base)
                  (relative_bad relative_to_path base) (λ p, [p])
                  (relative relative_to_path base)
                  (relative_or_same relative_to_path base) paths
                  (λ p _, relative_spec base p)) as Hpaths.
    rewrite bind_singletons in Hpaths.
    destruct (each _ paths) as [paths'|e]; simpl; [|done].
    by destruct Hpaths as [Hok ->].
Qed.

Lemma relative_groups_spec base groups :
  match relative_groups relative_to_path base groups with
  | Returns groups' =>
      Forall (relative_ok relative_to_path base) (all_paths groups)
      ∧ groups' = map_paths (relative_or_same relative_to_path base) groups
  | Raises e =>
      ∃ before p after, all_paths groups = before ++ p :: after
                        ∧ relative_bad relative_to_path base p e
                        ∧ Forall (relative_ok relative_to_path base) before
  end.
Proof.
  apply (each_parts (relative_ok relative_to_path base)
           (relative_bad relative_to_path base)
           (λ item : Key * Group, entry ← item.2; paths_of entry.2)).
  intros [key group] _. simpl.
  pose proof (each_parts (relative_ok relative_to_path base)
                (relative_bad relative_to_path base)
                (λ entry : TagName * Paths, paths_of entry.2)
                (λ entry, value ← relative_value relative_to_path base entry.2;
                          Returns (entry.1, value))
                (λ entry, (entry.1, map_value
                                      (relative_or_same relative_to_path base)
                                      entry.2))
                group) as Hgroup.
  destruct (each _ group) as [group'|e]; simpl.
  - destruct Hgroup as [Hok ->]; [|done].
    intros [tag_name value] _. simpl.
    pose proof (relative_value_spec base value) as Hvalue.
    destruct (relative_value _ base value) as [value'|e]; simpl; [|done].
    by destruct Hvalue as [Hok ->].
  - apply Hgroup. intros [tag_name value] _. simpl.
    pose proof (relative_value_spec base value) as Hvalue.
    destruct (relative_value _ base value) as [value'|e']; simpl; [|done].
    by destruct Hvalue as [Hok ->].
Qed.

(** *** [format_groups] *)

Lemma format_groups_dispatch groups tag_names relative_to squeeze with_keys
    output_format :
  format_groups relative_to_path groups tag_names relative_to squeeze with_keys
    output_format
  = (prepared ← prepare_groups relative_to_path groups tag_names relative_to
                  squeeze with_keys;
     let '(groups', existT squeezed prepared_groups) := prepared in
     if decide (output_format = "human") then Raises TypeError
     else if decide (output_format = "json") then
       Returns (groups', JsonDump squeezed with_keys prepared_groups)
     else if decide (output_format = "jsonl") then
       Returns (groups',
                JsonLines squeezed
                  (_iter_records squeezed with_keys prepared_groups))
     else if decide (output_format = "csv") then
       Returns (groups',
                CsvRows "," newline
                  (_iter_rows squeezed with_keys prepared_groups tag_names))
     else if decide (output_format = "tsv") then
       Returns (groups',
                CsvRows tab newline
                  (_iter_rows squeezed with_keys prepared_groups tag_names))
     else Raises (KeyError output_format)).
Proof.
  unfold format_groups.
  destruct (prepare_groups _ _ _ _ _ _) as [[groups' [squeezed prepared]]|e];
    [|done].
  simpl. unfold _FORMATTERS. simpl. by repeat case_decide.
Qed.

Lemma prepare_groups_relative groups tag_names relative_to squeeze with_keys :
  match prepare_groups relative_to_path groups tag_names relative_to
          squeeze with_keys with
  | Returns _ => relative_everywhere relative_to_path relative_to groups
  | Raises e =>
      ∃ path base, e = RelativeToError path base ∧ relative_to = Some base
                   ∧ path ∈ all_paths groups
                   ∧ relative_to_path path base = None
  end.
Proof.
  unfold prepare_groups. destruct relative_to as [base|].
  - pose proof (relative_groups_spec base groups) as Hspec.
    destruct (relative_groups _ base groups) as [groups'|e]; simpl.
    + destruct Hspec as [Hok _]. intros base' path [= <-] Hpath.
      exact (proj1 (Forall_forall _ _) Hok path Hpath).
    + destruct Hspec as (before & path & after & Hpaths & [-> Hnone] & _).
      exists path, base. split_and!; try done.
      rewrite Hpaths. apply elem_of_app. right. apply list_elem_of_here.
  - by intros base path [=].
Qed.

(** X11: the outcomes of [format_groups].  It returns for the formats
    json, jsonl, csv and tsv only.  The format human raises [TypeError]: its
    class is built without the separator its constructor requires, so the
    [NotImplementedError] of its [__call__] is never reached.  Any other
    name raises [KeyError].  The groups are prepared before the format is
    looked up: a path that is not relative to the base raises first,
    whatever the format. *)
Theorem format_groups_outcomes
    (groups : dict Key Group) (tag_names : list TagName)
    (relative_to : option Path) (squeeze with_keys : bool)
    (output_format : string) :
  match format_groups relative_to_path groups tag_names relative_to
          squeeze with_keys output_format with
  | Returns _ =>
      output_format ∈ ["json"; "jsonl"; "csv"; "tsv"]
      ∧ relative_everywhere relative_to_path relative_to groups
  | Raises (RelativeToError path base) =>
      relative_to = Some base ∧ path ∈ all_paths groups
      ∧ relative_to_path path base = None
  | Raises TypeError =>
      output_format = "human"
      ∧ relative_everywhere relative_to_path relative_to groups
  | Raises (KeyError key) =>
      key = output_format
      ∧ (output_format ∉ ["human"; "json"; "jsonl"; "csv"; "tsv"])
      ∧ relative_everywhere relative_to_path relative_to groups
  | Raises NotImplementedError => False
  end.
Proof.
  rewrite format_groups_dispatch.
  pose proof (prepare_groups_relative groups tag_names relative_to
                squeeze with_keys) as Hprepare.
  destruct (prepare_groups _ _ _ _ _ _) as [[groups' [squeezed prepared]]|e];
    simpl.
  - repeat case_decide; subst; simpl; split_and?; try done;
      try (repeat first [apply list_elem_of_here | apply list_elem_of_further]).
    rewrite !not_elem_of_cons. split_and!; try done. apply not_elem_of_nil.
  - destruct Hprepare as (path & base & -> & -> & Hpath & Hnone). done.
Qed.

(** *** The rows of a table *)

Lemma format_path_stored_value (missing : PathLike) value :
  missing = NoPath ∨ missing = Text "" →
  _format_path (from_option stored_value (Single missing) value)
  = cell_text value.
Proof.
  intros Hmissing. destruct value as [[p|ps]|]; simpl.
  - done.
  - unfold _format_path. f_equal.
    induction ps as [|p ps IH]; [done|]. simpl. f_equal. exact IH.
  - by destruct Hmissing as [-> | ->].
Qed.

Lemma iter_rows_whole with_keys groups tag_names :
  _iter_rows false with_keys (keyed_or_listed (squeezed := false) with_keys groups)
    tag_names
  = (TextCell <$> table_header tag_names false with_keys)
    :: (table_row tag_names with_keys <$> groups).
Proof.
  assert (∀ group : Group,
            TextCell <$> row_files false tag_names group
            = (λ tag_name, TextCell (cell_text (Dict.get tag_name group)))
                <$> tag_names) as Hrow.
  { intros group. unfold row_files. rewrite <-list_fmap_compose.
    apply list_fmap_ext. intros _ tag_name _. simpl. f_equal.
    apply format_path_stored_value. by right. }
  unfold _iter_rows, table_header, table_row.
  destruct with_keys; simpl; f_equal.
  - apply list_fmap_ext. intros _ [key group] _. simpl. f_equal. apply Hrow.
  - rewrite <-list_fmap_compose. apply list_fmap_ext.
    intros _ [key group] _. simpl. apply Hrow.
Qed.

Lemma iter_rows_squeezed with_keys groups tag_name :
  _iter_rows true with_keys
    (keyed_or_listed with_keys (squeezed_groups tag_name groups)) [tag_name]
  = (TextCell <$> table_header [tag_name] true with_keys)
    :: (table_row [tag_name] with_keys <$> groups).
Proof.
  unfold _iter_rows, table_header, table_row, squeezed_groups.
  destruct with_keys; simpl; f_equal; rewrite <-?list_fmap_compose;
    apply list_fmap_ext; intros _ [key group] _; simpl; repeat f_equal;
    apply format_path_stored_value; by left.
Qed.

Lemma prepare_groups_rows groups tag_names relative_to squeeze with_keys :
  match prepare_groups relative_to_path groups tag_names relative_to
          squeeze with_keys with
  | Returns (groups', existT squeezed prepared) =>
      _iter_rows squeezed with_keys prepared tag_names
      = (TextCell <$> table_header tag_names squeeze with_keys)
        :: (table_row tag_names with_keys <$> groups')
      ∧ length groups' = length groups
  | Raises _ => True
  end.
Proof.
  unfold prepare_groups.
  assert (match (match relative_to with
                 | Some base => relative_groups relative_to_path base groups
                 | None => Returns groups
                 end) with
          | Returns groups' => length groups' = length groups
          | Raises _ => True
          end) as Hlength.
  { destruct relative_to as [base|]; [|done].
    pose proof (relative_groups_spec base groups) as Hspec.
    destruct (relative_groups _ base groups) as [groups'|e]; [|done].
    destruct Hspec as [_ ->]. unfold map_paths. by rewrite length_fmap. }
  destruct (match relative_to with Some _ => _ | None => _ end)
    as [groups'|e]; simpl; [|done].
  destruct squeeze, tag_names as [|tag_name [|other tag_names]]; simpl;
    (split; [|done]);
    first [apply iter_rows_squeezed | apply iter_rows_whole].
Qed.

(** X12: the table of the formats csv and tsv.  The delimiter is the comma
    or the tabulation and the line terminator the newline.  The first row is
    the header: the tag names, or [files] when a single tag name is squeezed,
    after [key] when the keys are kept.  Then comes one row for each group,
    in the order of the groups, with one cell for each tag name: empty when
    the group lacks the tag, the path, or the paths joined by a comma and a
    space.  So every row has as many cells as there are tag names, and one
    more with the keys. *)
Theorem table_rows_of_the_groups
    (groups : dict Key Group) (tag_names : list TagName)
    (relative_to : option Path) (squeeze with_keys : bool)
    (output_format : string) (groups' : dict Key Group)
    (delimiter line_terminator : string) (rows : list (list Cell)) :
  format_groups relative_to_path groups tag_names relative_to squeeze with_keys
    output_format
  = Returns (groups', CsvRows delimiter line_terminator rows) →
  (output_format = "csv" ∧ delimiter = ","
   ∨ output_format = "tsv" ∧ delimiter = tab)
  ∧ line_terminator = newline
  ∧ rows = (TextCell <$> table_header tag_names squeeze with_keys)
           :: (table_row tag_names with_keys <$> groups')
  ∧ length rows = S (length groups)
  ∧ Forall (λ row, length row = (if with_keys then 1 else 0) + length tag_names)
           rows.
Proof.
  rewrite format_groups_dispatch. intros Hformat.
  pose proof (prepare_groups_rows groups tag_names relative_to squeeze with_keys)
    as Hrows.
  destruct (prepare_groups _ _ _ _ _ _) as [[groups0 [squeezed prepared]]|e];
    [|done].
  simpl in Hformat. destruct Hrows as [Hrows Hlength].
  assert ((output_format = "csv" ∧ delimiter = ","
           ∨ output_format = "tsv" ∧ delimiter = tab)
          ∧ line_terminator = newline ∧ groups0 = groups'
          ∧ rows = _iter_rows squeezed with_keys prepared tag_names)
    as (Hdelimiter & Hline & -> & ->).
  { repeat case_decide; try done; injection Hformat as -> <- <- <-;
      split_and!; try done; [left|right]; done. }
  rewrite Hrows. split_and!; [done|done|done|..].
  - simpl. by rewrite length_fmap, Hlength.
  - apply Forall_cons. split.
    + rewrite length_fmap. unfold table_header. rewrite length_app.
      f_equal; [by destruct with_keys|].
      by destruct squeeze, tag_names as [|tag_name [|other tag_names]].
    + apply Forall_fmap, Forall_forall. intros item _. simpl.
      unfold table_row. rewrite length_app, length_fmap.
      by destruct with_keys.
Qed.
End output_facts.

Section output_examples.
Import Files OutputFormatters Grouping Formatting.

Lemma table_rows_of_the_groups_witness :
  format_groups (λ _ _, None) routed_groups ["image"; "caption"] None true true
    "csv"
  = Returns (routed_groups, CsvRows "," newline routed_table)
  ∧ Forall (λ row, length row = 3) routed_table.
Proof.
  split; [reflexivity|].
  exact (proj2 (proj2 (proj2 (proj2
    (table_rows_of_the_groups (λ _ _, None) routed_groups ["image"; "caption"]
       None true true "csv" routed_groups "," newline routed_table eq_refl))))).
Defined.
End output_examples.

(** ** Grouping from end to end: the join law and the single-part collections *)

Section grouping_laws.
Import Files Routing Scenario Grouping.

Lemma elem_of_distributable_collections cs d :
  d ∈ distributable_collections cs ↔ d ∈ cs ∧ is_distributable d.
Proof.
  rewrite distributable_collections_sorted, sorted_perm, list_elem_of_filter.
  tauto.
Qed.

(** Among the distributable collections with the name of [d] that have a
    value for the group, the loop meets [d] last when it has the most key
    parts. *)
Lemma foldl_joined_most_key_parts cs parts group d path :
  d ∈ cs → is_distributable d → offered d parts = Some path →
  (∀ d', d' ∈ cs → is_distributable d' → name (tag d') = name (tag d) →
         is_Some (offered d' parts) →
         d' = d ∨ nb_key_parts d' < nb_key_parts d) →
  Dict.get (name (tag d))
    (foldl (λ group d, joined d (MultiPart parts) group) group
       (distributable_collections cs))
  = Some path.
Proof.
  intros Hd Hdist Hpath Hwins.
  assert (d ∈ distributable_collections cs) as Hsplit
    by by apply elem_of_distributable_collections.
  apply list_elem_of_split in Hsplit as (before & after & Hsplit).
  rewrite Hsplit. apply foldl_joined_last; [done|].
  intros d' Hd' Hname.
  destruct (offered d' parts) as [path'|] eqn:Hpath'; [|by left]. right.
  assert (d' ∈ cs ∧ is_distributable d') as [Hcs' Hdist'].
  { apply elem_of_distributable_collections. rewrite Hsplit.
    apply elem_of_app. right. by apply list_elem_of_further. }
  destruct (Hwins d' Hcs' Hdist' Hname) as [->|Hless].
  - by rewrite Hpath'.
  - by rewrite Hpath' in Hpath.
  - exfalso.
    pose proof (sorted_sorted nb_key_parts
                  (filter (λ c, is_distributable c) cs)) as Hsorted.
    rewrite <-distributable_collections_sorted, Hsplit in Hsorted.
    rewrite (cons_middle d before after), app_assoc in Hsorted.
    assert (by_key nb_key_parts d d') as Hle.
    { eapply StronglySorted_app_1_elem_of; [exact Hsorted| |exact Hd'].
      apply elem_of_app. right. apply list_elem_of_here. }
    unfold by_key in Hle. lia.
Qed.

(** A name under which no distributable collection has a value for the
    group is left as it was. *)
Lemma foldl_joined_none ds parts group n :
  (∀ d, d ∈ ds → name (tag d) = n → offered d parts = None) →
  Dict.get n (foldl (λ group d, joined d (MultiPart parts) group) group ds)
  = Dict.get n group.
Proof.
  revert group. induction ds as [|d ds IH]; intros group Hnone; [done|].
  cbn [foldl]. rewrite IH.
  - rewrite joined_offered.
    destruct (offered d parts) as [path|] eqn:Hpath; [|done].
    apply get_set_ne. intros Hname.
    by rewrite (Hnone d (list_elem_of_here _ _) Hname) in Hpath.
  - intros d' Hd'. by apply Hnone, list_elem_of_further.
Qed.

(** A group that exists keeps, through the merge of a collection, the
    entries whose name is not the one of a collection that holds its key. *)
Lemma get_attach_kept nm items groups key group :
  Dict.get key groups = Some group →
  ∃ group', Dict.get key (foldl (attach nm) groups items) = Some group'
            ∧ ∀ n, (nm = n → key ∉ items.*1) →
                   Dict.get n group' = Dict.get n group.
Proof.
  revert groups group.
  induction items as [|[k p] items IH]; intros groups group Hgroup.
  - exists group. done.
  - cbn [foldl]. unfold attach at 2. simpl.
    destruct (decide (k = key)) as [->|Hne].
    + rewrite Hgroup. simpl.
      destruct (IH (Dict.set key (Dict.set nm p group) groups)
                  (Dict.set nm p group)) as (group' & Hget & Hkept).
      { apply get_set_eq. }
      exists group'. split; [done|]. intros n Hn. rewrite Hkept.
      * apply get_set_ne. intros ->. apply Hn; [done|]. apply list_elem_of_here.
      * intros ->. intros Hin. apply Hn; [done|]. by apply list_elem_of_further.
    + destruct (IH (Dict.set k (Dict.set nm p (default [] (Dict.get k groups)))
                      groups) group) as (group' & Hget & Hkept).
      { by rewrite get_set_ne. }
      exists group'. split; [done|]. intros n Hn. apply Hkept.
      intros ->. intros Hin. apply Hn; [done|]. by apply list_elem_of_further.
Qed.

Lemma get_foldl_collect_kept ss groups key group :
  Dict.get key groups = Some group →
  ∃ group', Dict.get key (foldl collect groups ss) = Some group'
            ∧ ∀ n, (∀ s, s ∈ ss → name (tag s) = n →
                         key ∉ Dict.keys (files s)) →
                   Dict.get n group' = Dict.get n group.
Proof.
  revert groups group. induction ss as [|s ss IH]; intros groups group Hgroup.
  - exists group. done.
  - cbn [foldl].
    destruct (get_attach_kept (name (tag s)) (files s) groups key group Hgroup)
      as (group1 & Hget1 & Hkept1).
    destruct (IH (collect groups s) group1 Hget1) as (group' & Hget & Hkept).
    exists group'. split; [done|]. intros n Hn. rewrite Hkept.
    + apply Hkept1. intros Hname. by apply (Hn s (list_elem_of_here _ _)).
    + intros s' Hs'. by apply Hn, list_elem_of_further.
Qed.

Lemma phase_1_keys cs key :
  key ∈ Dict.keys (phase_1 cs) ↔
  ∃ c, c ∈ cs ∧ is_multi_part c ∧ key ∈ Dict.keys (files c).
Proof. apply elem_of_phase_1_keys. Qed.

Lemma phase_1_wf cs : Dict.wf (phase_1 cs).
Proof.
  unfold Dict.wf, phase_1. rewrite keys_foldl_collect. apply NoDup_first_seen.
Qed.

(** C3: the join law, on the result of [group_by_key].  The multi-part
    collections of the input hold multi-part keys and the formatter tells the
    key of the group apart from the other keys of phase 1.  Then
    [group_by_key] returns, and the group built in phase 1 under the key
    [parts] is found under its formatted key.  Under a tag name that no
    single-part collection brings to that key, the group holds the path that
    a distributable collection of the input with this name stores at the
    key reduced by its [distribute_over] (the collection with the most key
    parts, when several of this name have one); and when no distributable
    collection of this name has the reduced key, the group holds under the
    name what phase 1 left there. *)
Theorem group_by_key_join_law
    (cs : list FileCollection) (key_formatter : Key → GroupKey)
    (parts : MultiPartKey) (group1 : Group) :
  (∀ c key, c ∈ cs → is_multi_part c → key ∈ Dict.keys (files c) →
            ∃ parts', key = MultiPart parts') →
  (∀ key, key ∈ Dict.keys (phase_1 cs) →
          key_formatter key = key_formatter (MultiPart parts) →
          key = MultiPart parts) →
  Dict.get (MultiPart parts) (phase_1 cs) = Some group1 →
  ∃ out group,
    group_by_key cs key_formatter = Ok out
    ∧ Dict.get (Formatted (key_formatter (MultiPart parts))) out = Some group
    ∧ ∀ n,
        (∀ s, s ∈ cs → is_single_part s → name (tag s) = n →
              Dict.get (Formatted (key_formatter (MultiPart parts))) (files s)
              = None) →
        (∀ d path,
           d ∈ cs → is_distributable d → name (tag d) = n →
           offered d parts = Some path →
           (∀ d', d' ∈ cs → is_distributable d' → name (tag d') = n →
                  is_Some (offered d' parts) →
                  d' = d ∨ nb_key_parts d' < nb_key_parts d) →
           Dict.get n group = Some path)
        ∧ ((∀ d, d ∈ cs → is_distributable d → name (tag d) = n →
                 offered d parts = None) →
           Dict.get n group = Dict.get n group1).
Proof.
  intros Hmulti Hinj Hgroup1.
  assert (∀ key, key ∈ Dict.keys (phase_1 cs) → ∃ parts', key = MultiPart parts')
    as Hkeys.
  { intros key (c & Hc & Hmp & Hkey)%phase_1_keys. by apply (Hmulti c). }
  pose proof (foldM_distribute_joined (distributable_collections cs)
                (phase_1 cs) Hkeys) as Hfold.
  set (loop := λ (key : Key) (group : Group),
         foldl (λ group d, joined d key group) group
           (distributable_collections cs)) in *.
  set (groups2 := (λ item : Key * Group, (item.1, loop item.1 item.2))
                    <$> phase_1 cs) in *.
  assert (Dict.get (Formatted (key_formatter (MultiPart parts)))
            (Files.format_groups key_formatter groups2)
          = Some (loop (MultiPart parts) group1)) as Hformatted.
  { rewrite format_groups_get.
    - unfold groups2. by rewrite (get_rebuild loop), Hgroup1.
    - unfold Dict.wf, groups2. rewrite (keys_rebuild loop). apply phase_1_wf.
    - intros key. unfold groups2. rewrite (keys_rebuild loop). apply Hinj. }
  destruct (get_foldl_collect_kept (single_part_collections cs) _ _ _ Hformatted)
    as (group & Hgroup & Hkept).
  exists (foldl collect (Files.format_groups key_formatter groups2)
            (single_part_collections cs)), group.
  split_and!; [|done|].
  { rewrite group_by_key_phases. fold (phase_1 cs). by rewrite Hfold. }
  intros n Hsingle.
  assert (Dict.get n group = Dict.get n (loop (MultiPart parts) group1)) as ->.
  { apply Hkept. intros s Hs Hname. apply get_None.
    rewrite single_part_collections_filter in Hs.
    apply list_elem_of_filter in Hs as [Hsp Hs]. by apply Hsingle. }
  split.
  - intros d path Hd Hdist <- Hpath Hwins.
    by apply (foldl_joined_most_key_parts cs).
  - intros Hnone. apply foldl_joined_none.
    intros d [Hd Hdist]%elem_of_distributable_collections Hname.
    by apply Hnone.
Qed.
Lemma group_by_key_join_law_witness :
  ∃ out group,
    group_by_key [crop_collection; caption_collection]
      (format_parts ["id"; "crop_index"])
    = Ok out
    ∧ Dict.get (Formatted "1_0") out = Some group
    ∧ Dict.get "caption" group = Some (One "1.txt").
Proof.
  destruct (group_by_key_join_law [crop_collection; caption_collection]
              (format_parts ["id"; "crop_index"])
              (list_to_map [("id", "1"); ("crop_index", "0")])
              [("crop", One "1_0.jpg")])
    as (out & group & Hout & Hget & Hn).
  - intros c key Hc _ Hkey.
    apply elem_of_cons in Hc as [->|Hc];
      [|apply list_elem_of_singleton in Hc as ->];
      unfold Dict.keys in Hkey; simpl in Hkey;
      repeat (apply elem_of_cons in Hkey as [->|Hkey]; [eexists; reflexivity|]);
      by apply elem_of_nil in Hkey.
  - intros key Hkey Heq.
    assert (Dict.keys (phase_1 [crop_collection; caption_collection])
            = Dict.keys (files crop_collection)) as Hkeys by reflexivity.
    rewrite Hkeys in Hkey. unfold Dict.keys in Hkey. simpl in Hkey.
    repeat (apply elem_of_cons in Hkey as [->|Hkey];
            [first [reflexivity | vm_compute in Heq; discriminate Heq]|]).
    by apply elem_of_nil in Hkey.
  - reflexivity.
  - exists out, group. split; [exact Hout|]. split; [exact Hget|].
    destruct (Hn "caption") as [Hreceives _].
    + intros s Hs Hsingle.
      apply elem_of_cons in Hs as [->|Hs];
        [|apply list_elem_of_singleton in Hs as ->]; destruct Hsingle.
    + apply (Hreceives caption_collection (One "1.txt")).
      * apply list_elem_of_further, list_elem_of_here.
      * exact I.
      * reflexivity.
      * vm_compute. reflexivity.
      * intros d' Hd' Hdist' _ _.
        apply elem_of_cons in Hd' as [->|Hd']; [destruct Hdist'|].
        apply list_elem_of_singleton in Hd' as ->. by left.
Defined.

(** *** The single-part collections *)

Lemma filter_none {A} (P : A → Prop) `{!∀ x, Decision (P x)} (l : list A) :
  (∀ x, x ∈ l → ¬ P x) → filter P l = [].
Proof.
  induction l as [|x l IH]; intros Hnone; [done|].
  rewrite filter_cons_False by (apply Hnone, list_elem_of_here).
  apply IH. intros y Hy. by apply Hnone, list_elem_of_further.
Qed.

Lemma kinds_exclude c :
  (is_multi_part c → ¬ is_single_part c)
  ∧ (is_distributable c → ¬ is_single_part c).
Proof.
  unfold is_multi_part, is_distributable, is_single_part.
  destruct (kind (tag c)); simpl; tauto.
Qed.

(** Without its single-part collections, the input gives the groups of the
    first two phases under their formatted keys. *)
Lemma group_by_key_without_single_part cs key_formatter :
  group_by_key (filter (λ c, ¬ is_single_part c) cs) key_formatter
  = (groups ← foldM distribute (phase_1 cs) (distributable_collections cs);
     Ok (Files.format_groups key_formatter groups)).
Proof.
  rewrite group_by_key_phases. unfold phase_1.
  rewrite !multi_part_collections_filter, !distributable_collections_sorted,
    single_part_collections_filter.
  rewrite (list_filter_filter_l (λ c, is_multi_part c))
    by (intros c; apply kinds_exclude).
  rewrite (list_filter_filter_l (λ c, is_distributable c))
    by (intros c; apply kinds_exclude).
  rewrite (filter_none (λ c, is_single_part c)); [done|].
  by intros c [Hnot _]%list_elem_of_filter.
Qed.

(** Where the entries of the group of [key] come from after a merge. *)
Lemma get_attach_entries nm items groups key group' n paths :
  Dict.get key (foldl (attach nm) groups items) = Some group' →
  Dict.get n group' = Some paths →
  (nm = n ∧ (key, paths) ∈ items)
  ∨ ∃ group, Dict.get key groups = Some group ∧ Dict.get n group = Some paths.
Proof.
  revert groups.
  induction items as [|[k p] items IH]; intros groups Hget Hn.
  - right. by exists group'.
  - cbn [foldl] in Hget. destruct (IH _ Hget Hn) as [[-> Hin]|Hold].
    + left. split; [done|]. by apply list_elem_of_further.
    + destruct Hold as (group & Hgroup & Hentry).
      unfold attach in Hgroup. simpl in Hgroup. rewrite get_set in Hgroup.
      destruct (decide (k = key)) as [->|Hne]; [|right; by exists group].
      injection Hgroup as <-. rewrite get_set in Hentry.
      destruct (decide (nm = n)) as [->|Hnm].
      * injection Hentry as <-. left. split; [done|apply list_elem_of_here].
      * destruct (Dict.get key groups) as [old|]; [|done].
        right. by exists old.
Qed.

Lemma created_group_entries ss groups key group n paths :
  Dict.get key groups = None →
  Dict.get key (foldl collect groups ss) = Some group →
  Dict.get n group = Some paths →
  ∃ s, s ∈ ss ∧ name (tag s) = n ∧ (key, paths) ∈ files s.
Proof.
  intros Hnone. revert group n paths.
  induction ss as [|s ss IH] using rev_ind; intros group n paths Hget Hn.
  - simpl in Hget. by rewrite Hnone in Hget.
  - rewrite foldl_app in Hget. cbn [foldl] in Hget.
    destruct (get_attach_entries _ _ _ _ _ _ _ Hget Hn)
      as [[Hname Hin]|(old & Hold & Hentry)].
    + exists s. split_and!; [|done|done].
      apply elem_of_app. right. apply list_elem_of_here.
    + destruct (IH old n paths Hold Hentry) as (s' & Hs' & Hname & Hin).
      exists s'. split_and!; [|done|done]. apply elem_of_app. by left.
Qed.

(** C5: the single-part collections, on the result of [group_by_key].
    The result is what [group_by_key] answers on the other collections of
    the input, whose groups all stand under formatted keys, into which the
    single-part collections of the input are poured in the order of the
    input: the groups of the other collections keep their place and the new
    keys follow.  An entry of a single-part collection (the only one of its
    name) is found in the result under its own key and the name of its tag;
    a group that stood under this key keeps the entries no single-part
    collection brings to it, and a group that did not exist holds nothing
    but entries of single-part collections with this key. *)
Theorem group_by_key_merges_single_part_collections_last
    (cs : list FileCollection) (key_formatter : Key → GroupKey)
    (out : dict Key Group) :
  group_by_key cs key_formatter = Ok out →
  ∃ before,
    group_by_key (filter (λ c, ¬ is_single_part c) cs) key_formatter = Ok before
    ∧ (∀ key, key ∈ Dict.keys before →
              ∃ c k, c ∈ cs ∧ is_multi_part c ∧ k ∈ Dict.keys (files c)
                     ∧ key = Formatted (key_formatter k))
    ∧ out = foldl collect before (filter (λ c, is_single_part c) cs)
    ∧ Dict.keys out
      = foldl see (Dict.keys before)
          (all_keys (filter (λ c, is_single_part c) cs))
    ∧ ∀ s key path,
        s ∈ cs → is_single_part s →
        Dict.wf (files s) → Dict.get key (files s) = Some path →
        (∀ s', s' ∈ cs → is_single_part s' →
               name (tag s') = name (tag s) → s' = s) →
        ∃ group,
          Dict.get key out = Some group
          ∧ Dict.get (name (tag s)) group = Some path
          ∧ (∀ existing n,
               Dict.get key before = Some existing →
               (∀ s', s' ∈ cs → is_single_part s' → name (tag s') = n →
                      key ∉ Dict.keys (files s')) →
               Dict.get n group = Dict.get n existing)
          ∧ (Dict.get key before = None →
             ∀ n paths, Dict.get n group = Some paths →
               ∃ s', s' ∈ cs ∧ is_single_part s' ∧ name (tag s') = n
                     ∧ (key, paths) ∈ files s').
Proof.
  rewrite group_by_key_phases, group_by_key_without_single_part.
  fold (phase_1 cs).
  destruct (foldM distribute _ _) as [groups|e] eqn:Hfold; simpl; [|done].
  intros [= <-]. rewrite single_part_collections_filter.
  exists (Files.format_groups key_formatter groups).
  split_and!; [done| |done|apply keys_foldl_collect|].
  { intros key (k & Hk & ->)%format_groups_keys.
    rewrite (foldM_distribute_keys _ _ _ Hfold) in Hk.
    apply phase_1_keys in Hk as (c & Hc & Hmp & Hk). by exists c, k. }
  intros s key path Hs Hsingle Hwf Hpath Hname.
  assert (entry (foldl collect (Files.format_groups key_formatter groups)
                   (filter (λ c, is_single_part c) cs))
            key (name (tag s)) path) as (group & Hgroup & Hentry).
  { apply entry_foldl_collect; [done|done| |].
    - intros s' [Hsingle' Hs']%list_elem_of_filter. by apply Hname.
    - right. by apply list_elem_of_filter. }
  exists group. split_and!; [done|done| |].
  - intros existing n Hexisting Hothers.
    destruct (get_foldl_collect_kept (filter (λ c, is_single_part c) cs)
                _ _ _ Hexisting) as (group' & Hgroup' & Hkept).
    rewrite Hgroup in Hgroup'. injection Hgroup' as <-. apply Hkept.
    intros s' [Hsingle' Hs']%list_elem_of_filter. by apply Hothers.
  - intros Hnew n paths Hn.
    destruct (created_group_entries _ _ _ _ _ _ Hnew Hgroup Hn)
      as (s' & [Hsingle' Hs']%list_elem_of_filter & Hname' & Hin).
    by exists s'.
Qed.

Lemma group_by_key_merges_single_part_collections_last_witness :
  ∃ before group,
    group_by_key (filter (λ c, ¬ is_single_part c)
                    (routed_collections ++ [notes_collection]))
      (format_parts ["id"])
    = Ok before
    ∧ noted_groups = foldl collect before [notes_collection]
    ∧ Dict.get (Formatted "1") noted_groups = Some group
    ∧ Dict.get "notes" group = Some (One "notes/1.md")
    ∧ Dict.get "image" group = Some (One "1.jpg").
Proof.
  destruct (group_by_key_merges_single_part_collections_last
              (routed_collections ++ [notes_collection]) (format_parts ["id"])
              noted_groups eq_refl)
    as (before & Hbefore & _ & Hout & _ & Hentries).
  destruct (Hentries notes_collection (Formatted "1") (One "notes/1.md"))
    as (group & Hgroup & Hnotes & Hjoins & _).
  - apply elem_of_app. right. apply list_elem_of_here.
  - exact I.
  - apply NoDup_cons. split; [|apply NoDup_singleton].
    by intros [=]%list_elem_of_singleton.
  - reflexivity.
  - intros s' Hs' Hsingle' _. apply elem_of_app in Hs' as [Hs'|Hs'].
    + unfold routed_collections in Hs'.
      repeat (apply elem_of_cons in Hs' as [->|Hs']; [destruct Hsingle'|]).
      by apply elem_of_nil in Hs'.
    + by apply list_elem_of_singleton in Hs' as ->.
  - exists before, group. split_and!; [exact Hbefore|exact Hout|exact Hgroup|
                                        exact Hnotes|].
    injection Hgroup as <-. reflexivity.
Defined.

End grouping_laws.

(** ** The loop of [prepare_groups] on shared objects *)

Section in_place_facts.
Import Files Routing OutputFormatters InPlace Formatting.
Context (relative_to_path : Path → Path → option Path).

Lemma relative_unless_none_spec base path :
  match relative_unless_none relative_to_path base path with
  | Returns path' =>
      Forall (relative_ok relative_to_path base) (option_list path)
      ∧ path' = relative_or_same relative_to_path base <$> path
  | Raises e =>
      ∃ before p after, option_list path = before ++ p :: after
                        ∧ relative_bad relative_to_path base p e
                        ∧ Forall (relative_ok relative_to_path base) before
  end.
Proof.
  destruct path as [path|]; simpl; [|by split].
  pose proof (relative_spec relative_to_path base path) as Hpath.
  destruct (relative relative_to_path base path) as [path'|e]; simpl; [|done].
  by destruct Hpath as [Hok ->].
Qed.

Lemma relative_in_value_spec base value :
  match relative_in_value relative_to_path base value with
  | Returns value' =>
      Forall (relative_ok relative_to_path base) (value_paths value)
      ∧ value' = map_in_value (relative_or_same relative_to_path base) value
  | Raises e =>
      ∃ before p after, value_paths value = before ++ p :: after
                        ∧ relative_bad relative_to_path base p e
                        ∧ Forall (relative_ok relative_to_path base) before
  end.
Proof.
  destruct value as [path|paths]; simpl.
  - pose proof (relative_unless_none_spec base path) as Hpath.
    destruct (relative_unless_none _ base path) as [path'|e]; simpl; [|done].
    by destruct Hpath as [Hok ->].
  - pose proof (each_parts (relative_ok relative_to_path base)
                  (relative_bad relative_to_path base) option_list
                  (relative_unless_none relative_to_path base)
                  (fmap (relative_or_same relative_to_path base)) paths
                  (λ p _, relative_unless_none_spec base p)) as Hpaths.
    destruct (each _ paths) as [paths'|e]; simpl; [|done].
    by destruct Hpaths as [Hok ->].
Qed.

Lemma relative_in_group_spec base group :
  match relative_in_group relative_to_path base group with
  | Returns group' =>
      Forall (relative_ok relative_to_path base) (group_paths group)
      ∧ group' = map_in_group (relative_or_same relative_to_path base) group
  | Raises e =>
      ∃ before p after, group_paths group = before ++ p :: after
                        ∧ relative_bad relative_to_path base p e
                        ∧ Forall (relative_ok relative_to_path base) before
  end.
Proof.
  apply (each_parts (relative_ok relative_to_path base)
           (relative_bad relative_to_path base)
           (λ entry : TagName * Value, value_paths entry.2)).
  intros [tag_name value] _. simpl.
  pose proof (relative_in_value_spec base value) as Hvalue.
  destruct (relative_in_value _ base value) as [value'|e]; simpl; [|done].
  by destruct Hvalue as [Hok ->].
Qed.

Lemma visited_paths_cons r values heap :
  visited_paths (r :: values) heap
  = from_option group_paths [] (heap !! r) ++ visited_paths values heap.
Proof. done. Qed.

Lemma visited_paths_insert r group values heap :
  r ∉ values →
  visited_paths values (<[r := group]> heap) = visited_paths values heap.
Proof.
  induction values as [|r' values IH]; intros Hr; [done|].
  rewrite !visited_paths_cons, IH, list_lookup_insert_ne; [done| |].
  - intros ->. apply Hr, list_elem_of_here.
  - intros Hin. by apply Hr, list_elem_of_further.
Qed.

Lemma relative_in_place_cons base r values heap :
  relative_in_place relative_to_path base (r :: values) heap
  = match heap !! r with
    | Some group =>
        group ← relative_in_group relative_to_path base group;
        relative_in_place relative_to_path base values (<[r := group]> heap)
    | None => relative_in_place relative_to_path base values heap
    end.
Proof. done. Qed.

(** When the keys hold distinct objects. *)
Lemma relative_in_place_distinct base values heap :
  NoDup values →
  match relative_in_place relative_to_path base values heap with
  | Returns heap' =>
      Forall (relative_ok relative_to_path base) (visited_paths values heap)
      ∧ length heap' = length heap
      ∧ ∀ r group, heap !! r = Some group →
          heap' !! r
          = Some (if decide (r ∈ values)
                  then map_in_group (relative_or_same relative_to_path base)
                         group
                  else group)
  | Raises e =>
      ∃ before p after, visited_paths values heap = before ++ p :: after
                        ∧ relative_bad relative_to_path base p e
                        ∧ Forall (relative_ok relative_to_path base) before
  end.
Proof.
  revert heap. induction values as [|r values IH]; intros heap Hdistinct.
  - cbn [relative_in_place]. split_and!; [apply Forall_nil_2|done|].
    intros r group Hr. rewrite Hr.
    destruct (decide (r ∈ [])) as [Hin|_]; [by apply elem_of_nil in Hin|done].
  - apply NoDup_cons in Hdistinct as [Hr Hdistinct].
    rewrite relative_in_place_cons, visited_paths_cons.
    destruct (heap !! r) as [group|] eqn:Hgroup; simpl.
    + pose proof (relative_in_group_spec base group) as Hspec.
      destruct (relative_in_group _ base group) as [group'|e]; simpl.
      * destruct Hspec as [Hok ->].
        specialize (IH (<[r := map_in_group
                              (relative_or_same relative_to_path base) group]>
                          heap) Hdistinct).
        rewrite visited_paths_insert in IH by done.
        destruct (relative_in_place _ base values _) as [heap'|e].
        -- destruct IH as (Hoks & Hlength & Hheap').
           split_and!; [by apply Forall_app|by rewrite Hlength, length_insert|].
           intros r0 group0 Hr0. destruct (decide (r0 = r)) as [->|Hne].
           ++ rewrite Hgroup in Hr0. injection Hr0 as <-.
              rewrite (Hheap' r (map_in_group
                                   (relative_or_same relative_to_path base)
                                   group)).
              ** rewrite decide_False by done.
                 by rewrite decide_True by apply list_elem_of_here.
              ** apply list_lookup_insert_eq. by eapply lookup_lt_Some.
           ++ rewrite (Hheap' r0 group0) by by rewrite list_lookup_insert_ne.
              f_equal. apply decide_ext. rewrite elem_of_cons. tauto.
        -- destruct IH as (before & p & after & Hpaths & Hbad & Hbefore).
           exists (group_paths group ++ before), p, after.
           rewrite Hpaths, app_assoc. split_and!; [done|done|].
           by apply Forall_app.
      * destruct Hspec as (before & p & after & Hpaths & Hbad & Hbefore).
        exists before, p, (after ++ visited_paths values heap).
        by rewrite Hpaths, <-app_assoc.
    + specialize (IH heap Hdistinct).
      destruct (relative_in_place _ base values heap) as [heap'|e]; [|done].
      destruct IH as (Hoks & Hlength & Hheap'). split_and!; [done|done|].
      intros r0 group0 Hr0. rewrite (Hheap' r0 group0 Hr0). f_equal.
      apply decide_ext. rewrite elem_of_cons.
      split; [tauto|]. intros [->|Hin]; [|done]. by rewrite Hgroup in Hr0.
Qed.
Lemma relative_in_place_app base values1 values2 heap :
  relative_in_place relative_to_path base (values1 ++ values2) heap
  = (heap1 ← relative_in_place relative_to_path base values1 heap;
     relative_in_place relative_to_path base values2 heap1).
Proof.
  revert heap. induction values1 as [|r values1 IH]; intros heap; [done|].
  rewrite <-app_comm_cons, !relative_in_place_cons.
  destruct (heap !! r) as [group|]; [|apply IH].
  destruct (relative_in_group _ base group) as [group'|e]; simpl; [apply IH|done].
Qed.

Lemma relative_in_place_twice base r group heap :
  heap !! r = Some group →
  relative_in_place relative_to_path base [r; r] heap
  = (group1 ← relative_in_group relative_to_path base group;
     group2 ← relative_in_group relative_to_path base group1;
     Returns (<[r := group2]> heap)).
Proof.
  intros Hgroup. rewrite relative_in_place_cons, Hgroup.
  destruct (relative_in_group _ base group) as [group1|e]; simpl; [|done].
  rewrite list_lookup_insert_eq by by eapply lookup_lt_Some.
  destruct (relative_in_group _ base group1) as [group2|e]; simpl; [|done].
  by rewrite list_insert_insert_eq.
Qed.

(** On the groups of [group_by_key], each an object of its own holding
    paths, the loop is the one [prepare_groups] is embedded with. *)
Lemma each_relative_some base (paths : list Path) :
  each (relative_unless_none relative_to_path base)
    (fmap (M := list) Some paths)
  = (paths' ← each (relative relative_to_path base) paths;
     Returns (fmap (M := list) Some paths')).
Proof.
  induction paths as [|path paths IH]; [done|].
  rewrite fmap_cons, !each_cons, IH. simpl.
  destruct (relative relative_to_path base path) as [path'|e]; simpl; [|done].
  by destruct (each (relative relative_to_path base) paths).
Qed.

Lemma relative_in_value_object base value :
  relative_in_value relative_to_path base (object_value value)
  = (value' ← OutputFormatters.relative_value relative_to_path base value;
     Returns (object_value value')).
Proof.
  destruct value as [path|paths]; simpl.
  - by destruct (relative relative_to_path base path).
  - rewrite each_relative_some.
    by destruct (each (relative relative_to_path base) paths).
Qed.

Lemma relative_in_group_object base (group : Group) :
  relative_in_group relative_to_path base (object_of group)
  = (group' ← each (λ entry : TagName * Paths,
                      value ← OutputFormatters.relative_value relative_to_path
                                base entry.2;
                      Returns (entry.1, value)) group;
     Returns (object_of group')).
Proof.
  unfold relative_in_group, object_of.
  induction group as [|[tag_name value] group IH]; [done|].
  rewrite fmap_cons, !each_cons, IH. simpl.
  rewrite relative_in_value_object.
  destruct (OutputFormatters.relative_value _ base value) as [value'|e];
    simpl; [|done].
  by destruct (each _ group).
Qed.

Lemma relative_in_place_heap_of base prefix (groups : dict Key Group) :
  relative_in_place relative_to_path base
    (seq (length prefix) (length groups)) (prefix ++ heap_of groups)
  = (groups' ← relative_groups relative_to_path base groups;
     Returns (prefix ++ heap_of groups')).
Proof.
  unfold relative_groups, heap_of. revert prefix.
  induction groups as [|[key group] groups IH]; intros prefix; [done|].
  rewrite !fmap_cons, each_cons. cbn [length seq fst snd].
  rewrite relative_in_place_cons.
  rewrite lookup_app_r, Nat.sub_diag by done. cbn [lookup list_lookup].
  rewrite relative_in_group_object.
  destruct (each _ group) as [group'|e]; simpl; [|done].
  rewrite insert_app_r_alt, Nat.sub_diag by done. cbn [insert list_insert].
  assert (∀ tail, prefix ++ object_of group' :: tail
                  = (prefix ++ [object_of group']) ++ tail) as Hmove.
  { intros tail. by rewrite <-app_assoc. }
  rewrite Hmove.
  assert (S (length prefix) = length (prefix ++ [object_of group'])) as ->.
  { rewrite length_app. simpl. lia. }
  rewrite IH.
  match goal with
  | |- ?m ≫= _ = _ => destruct m as [groups'|e]
  end; simpl; [|done].
  by rewrite <-app_assoc.
Qed.

(** X10: the loop of lines 51-56 rewrites the group objects where they
    are, once for each key that holds them.  When the keys hold distinct
    objects, the loop returns exactly when every path of the visited
    groups is relative to the base, [None] not being a path: each visited
    group then has its paths replaced by the relative ones and no other
    object is touched; otherwise the loop raises the error of the first path
    that is not relative.  The later keys work on the heap the earlier ones
    left, so a group that two keys hold is rewritten twice, the second time
    from its relative paths.  On the groups of [group_by_key], each an
    object of its own holding paths, the loop is [relative_groups]. *)
Theorem relative_to_rewrites_the_groups_in_place (base : Path) :
  (∀ values heap,
     NoDup values →
     match relative_in_place relative_to_path base values heap with
     | Returns heap' =>
         (∀ path, path ∈ visited_paths values heap →
                  is_Some (relative_to_path path base))
         ∧ length heap' = length heap
         ∧ ∀ r group, heap !! r = Some group →
             heap' !! r
             = Some (if decide (r ∈ values)
                     then map_in_group
                            (λ path, default path (relative_to_path path base))
                            group
                     else group)
     | Raises e =>
         ∃ before path after,
           visited_paths values heap = before ++ path :: after
           ∧ e = RelativeToError path base
           ∧ relative_to_path path base = None
           ∧ ∀ earlier, earlier ∈ before →
                        is_Some (relative_to_path earlier base)
     end)
  ∧ (∀ values1 values2 heap,
       relative_in_place relative_to_path base (values1 ++ values2) heap
       = (heap1 ← relative_in_place relative_to_path base values1 heap;
          relative_in_place relative_to_path base values2 heap1))
  ∧ (∀ r group heap,
       heap !! r = Some group →
       relative_in_place relative_to_path base [r; r] heap
       = (group1 ← relative_in_group relative_to_path base group;
          group2 ← relative_in_group relative_to_path base group1;
          Returns (<[r := group2]> heap)))
  ∧ (∀ groups : dict Key Group,
       relative_in_place relative_to_path base (seq 0 (length groups))
         (heap_of groups)
       = (groups' ← relative_groups relative_to_path base groups;
          Returns (heap_of groups'))).
Proof.
  split_and!.
  - intros values heap Hdistinct.
    pose proof (relative_in_place_distinct base values heap Hdistinct) as Hspec.
    destruct (relative_in_place _ base values heap) as [heap'|e].
    + destruct Hspec as (Hok & Hlength & Hheap').
      split_and!; [|done|done]. intros path Hpath.
      exact (proj1 (Forall_forall _ _) Hok path Hpath).
    + destruct Hspec as (before & path & after & Hpaths & [-> Hnone] & Hbefore).
      exists before, path, after. split_and!; [done|done|done|].
      intros earlier Hearlier.
      exact (proj1 (Forall_forall _ _) Hbefore earlier Hearlier).
  - apply relative_in_place_app.
  - intros r group heap. apply relative_in_place_twice.
  - intros groups. apply (relative_in_place_heap_of base []).
Qed.

End in_place_facts.

Section in_place_examples.
Import Files OutputFormatters InPlace Formatting.

Lemma relative_to_rewrites_the_groups_in_place_witness :
  relative_in_place under "base" [0] shared_heap
  = Returns [[("image", Scalar (Some "1.jpg")); ("caption", Scalar None)]]
  ∧ relative_in_place under "base" [0; 0] shared_heap
    = Raises (RelativeToError "1.jpg" "base").
Proof.
  split; [reflexivity|].
  rewrite (proj1 (proj2 (proj2
             (relative_to_rewrites_the_groups_in_place under "base")))
             0 _ shared_heap eq_refl).
  reflexivity.
Defined.
End in_place_examples.
